(** * Thermoelectric leg solver: shallow embedding of [new_tring.py]

    The development embeds the numerical core of the program
    ([ThermoelectricCalculator.create_interpolators],
    [calculate_temperature_distribution], [calculate_efficiency],
    [calculate_zt], and the sweep loops of
    [ThermoelectricApp.calculate_device_performance],
    [update_efficiency_plots] and [analyze_efficiency_curve]) and proves
    properties of it.

    Numbers.  The program computes on binary64 values.  They are modelled
    by [num]: exact rationals extended with the three special values of
    IEEE arithmetic ([PInf], [NInf], [NaN]).  Finite arithmetic is exact
    (no rounding, no overflow, one unsigned zero); division by zero and
    the arithmetic of the special values follow IEEE/numpy, so that the
    guards the program has for them ([isnan], [isinf], [!= 0]) keep their
    meaning.  Python-level float division, which raises
    [ZeroDivisionError], is kept apart from numpy division, which does
    not. *)

From Stdlib Require Import QArith Qabs Lia Lqa Sorting.Permutation Sorting.Sorted.
From stdpp Require Import gmap strings list.

Local Open Scope Q_scope.

(* ------------------------------------------------------------------ *)
(** ** Extended rational numbers *)

Inductive num : Type :=
| Fin (q : Q)
| PInf
| NInf
| NaN.

Coercion Fin : Q >-> num.

Definition inf_of (c : comparison) : num :=
  match c with Gt => PInf | Lt => NInf | Eq => NaN end.

Definition isnan (x : num) : bool :=
  match x with NaN => true | _ => false end.

Definition isinf (x : num) : bool :=
  match x with PInf | NInf => true | _ => false end.

Definition isfinite (x : num) : bool :=
  match x with Fin _ => true | _ => false end.

Definition fneg (x : num) : num :=
  match x with
  | Fin a => Fin (- a)
  | PInf => NInf
  | NInf => PInf
  | NaN => NaN
  end.

Definition fadd (x y : num) : num :=
  match x, y with
  | Fin a, Fin b => Fin (a + b)
  | NaN, _ | _, NaN => NaN
  | PInf, NInf | NInf, PInf => NaN
  | PInf, _ | _, PInf => PInf
  | NInf, _ | _, NInf => NInf
  end.

Definition fsub (x y : num) : num := fadd x (fneg y).

Definition fmul (x y : num) : num :=
  match x, y with
  | Fin a, Fin b => Fin (a * b)
  | NaN, _ | _, NaN => NaN
  | Fin a, PInf | PInf, Fin a => inf_of (a ?= 0)
  | Fin a, NInf | NInf, Fin a => inf_of (0 ?= a)
  | PInf, PInf | NInf, NInf => PInf
  | PInf, NInf | NInf, PInf => NInf
  end.

(** numpy division: never raises; a zero divisor gives an infinity of the
    sign of the dividend, [0/0] gives [NaN]. *)
Definition fdiv (x y : num) : num :=
  match x, y with
  | Fin a, Fin b => if Qeq_bool b 0 then inf_of (a ?= 0) else Fin (a / b)
  | NaN, _ | _, NaN => NaN
  | Fin _, (PInf | NInf) => Fin 0
  | PInf, Fin b => match b ?= 0 with Lt => NInf | _ => PInf end
  | NInf, Fin b => match b ?= 0 with Lt => PInf | _ => NInf end
  | (PInf | NInf), (PInf | NInf) => NaN
  end.

(** Python float division: [ZeroDivisionError] on a zero divisor. *)
Definition pydiv (x y : num) : option num :=
  match y with
  | Fin b => if Qeq_bool b 0 then None else Some (fdiv x y)
  | _ => Some (fdiv x y)
  end.

Definition fabs (x : num) : num :=
  match x with
  | Fin a => Fin (Qabs a)
  | PInf | NInf => PInf
  | NaN => NaN
  end.

(** Comparisons as Python and numpy evaluate them: every comparison with
    [NaN] is false, except [!=]. *)
Definition fltb (x y : num) : bool :=
  match x, y with
  | Fin a, Fin b => match a ?= b with Lt => true | _ => false end
  | NaN, _ | _, NaN => false
  | NInf, (Fin _ | PInf) => true
  | Fin _, PInf => true
  | _, _ => false
  end.

Definition feqb (x y : num) : bool :=
  match x, y with
  | Fin a, Fin b => Qeq_bool a b
  | PInf, PInf | NInf, NInf => true
  | _, _ => false
  end.

Definition fleb (x y : num) : bool := fltb x y || feqb x y.
Definition fgtb (x y : num) : bool := fltb y x.
Definition fneb (x y : num) : bool := negb (feqb x y).

Declare Scope num_scope.
Delimit Scope num_scope with num.
Bind Scope num_scope with num.
Infix "+" := fadd : num_scope.
Infix "-" := fsub : num_scope.
Infix "*" := fmul : num_scope.
Infix "/" := fdiv : num_scope.
Notation "- x" := (fneg x) : num_scope.
Infix "<?" := fltb : num_scope.
Infix "<=?" := fleb : num_scope.
Infix ">?" := fgtb : num_scope.
Infix "=?" := feqb : num_scope.

(** [x ** 2] on an array or scalar. *)
Definition fsq (x : num) : num := (x * x)%num.

(** Python's builtin [min(a, b)] and [max(a, b)] on two arguments: the
    first argument is kept unless the second compares strictly better. *)
Definition py_min (a b : num) : num := if (b <? a)%num then b else a.
Definition py_max (a b : num) : num := if (a <? b)%num then b else a.

(** [np.maximum], [np.minimum] and [np.clip]: [NaN] propagates. *)
Definition np_maximum (a b : num) : num :=
  if isnan a || (a >? b)%num then a else b.
Definition np_minimum (a b : num) : num :=
  if isnan a || (a <? b)%num then a else b.
Definition np_clip (x lo hi : num) : num := np_minimum (np_maximum x lo) hi.

Definition of_nat (n : nat) : num := Fin (inject_Z (Z.of_nat n)).
Definition of_Z (z : Z) : num := Fin (inject_Z z).

(* ------------------------------------------------------------------ *)
(** ** Arrays *)

(** A one-dimensional numpy array is a list.  Reads inside the program
    are always in range (every array is allocated with [n_points]
    entries); [get] returns [NaN] out of range. *)
Definition get (a : list num) (i : nat) : num := nth i a NaN.

(** [np.linspace(start, stop, n)]: [arange(n) * step + start] with
    [step = (stop - start) / (n - 1)], the last entry overwritten with
    [stop]. *)
Definition linspace (start stop : num) (n : nat) : list num :=
  match n with
  | O => []
  | S O => [start]
  | S (S k as m) =>
      let step := ((stop - start) / of_nat m)%num in
      map (fun i => (of_nat i * step + start)%num) (seq 0 m) ++ [stop]
  end.

(** [np.max] of an array; [None] on an empty array ([ValueError]). *)
Definition np_max (a : list num) : option num :=
  match a with
  | [] => None
  | x :: r => Some (fold_left np_maximum r x)
  end.

(** [np.array_equal] on two one-dimensional arrays. *)
Fixpoint array_equal (a b : list num) : bool :=
  match a, b with
  | [], [] => true
  | x :: a', y :: b' => (x =? y)%num && array_equal a' b'
  | _, _ => false
  end.

Definition has_nan (a : list num) : bool := existsb isnan a.
Definition has_inf (a : list num) : bool := existsb isinf a.
Definition all_finite (a : list num) : bool := forallb isfinite a.

(* ------------------------------------------------------------------ *)
(** ** Sorting by temperature: [np.argsort] and fancy indexing *)

(** The order numpy sorts floating-point keys by: numeric order, [NaN]
    last. *)
Definition key_leb (x y : num) : bool :=
  match x, y with
  | _, NaN => true
  | NaN, _ => false
  | NInf, _ => true
  | _, NInf => false
  | _, PInf => true
  | PInf, _ => false
  | Fin a, Fin b => Qle_bool a b
  end.

Fixpoint insert_sorted (p : num * nat) (l : list (num * nat)) : list (num * nat) :=
  match l with
  | [] => [p]
  | q :: r => if key_leb p.1 q.1 then p :: q :: r else q :: insert_sorted p r
  end.

Definition sort_keys (l : list (num * nat)) : list (num * nat) :=
  foldr insert_sorted [] l.

(** [np.argsort(a)]: the indices of [a] in ascending order of their
    keys (equal keys keep their order). *)
Definition argsort (a : list num) : list nat :=
  map snd (sort_keys (combine a (seq 0 (length a)))).

(** [a[idx]] for an index array [idx]; [None] is [IndexError]. *)
Definition fancy_index (a : list num) (idx : list nat) : option (list num) :=
  mapM (fun i => a !! i) idx.

(* ------------------------------------------------------------------ *)
(** ** Material data and interpolators *)

(** One entry of [p_type_data] / [n_type_data]: a dict of four arrays. *)
Record MaterialData : Type := {
  md_temp : list num;
  md_seebeck : list num;
  md_resistivity : list num;
  md_thermal_cond : list num
}.

(** [scipy.interpolate.interp1d(x, y, kind='linear', bounds_error=False,
    fill_value=(below, above))].  The library is not part of the
    repository; the object is modelled by the data it is built from and
    [interp1d_call] by the library's documented behaviour. *)
Record Interp1d : Type := {
  ip_x : list num;
  ip_y : list num;
  ip_below : num;
  ip_above : num
}.

(** Piecewise-linear interpolation on ascending sample points, for an
    abscissa not below the first sample: the segment [x0 <= x < x1] is
    searched from the left, a sample point returns its own value, and
    the last sample returns its value. *)
Fixpoint np_interp (xp fp : list num) (x : num) : num :=
  match xp, fp with
  | x0 :: xp', y0 :: fp' =>
      match xp', fp' with
      | x1 :: _, y1 :: _ =>
          if (x <? x1)%num then
            if (x0 =? x)%num then y0
            else ((y1 - y0) / (x1 - x0) * (x - x0) + y0)%num
          else np_interp xp' fp' x
      | _, _ => y0
      end
  | _, _ => NaN
  end.

Definition interp1d_call (f : Interp1d) (x : num) : num :=
  if isnan x then NaN
  else if (x <? hd NaN (ip_x f))%num then ip_below f
  else if (List.last (ip_x f) NaN <? x)%num then ip_above f
  else np_interp (ip_x f) (ip_y f) x.

(** The constructor refuses arrays of different lengths and an empty
    table ([ValueError]). *)
Definition interp1d (x y : list num) (below above : num) : option Interp1d :=
  if negb (length x =? length y)%nat then None
  else if (length x =? 0)%nat then None
  else Some {| ip_x := x; ip_y := y; ip_below := below; ip_above := above |}.

(** One entry of [self.interpolators]. *)
Record Interpolators : Type := {
  i_seebeck : Interp1d;
  i_resistivity : Interp1d;
  i_thermal_cond : Interp1d
}.

(** The calculator object: the two data dictionaries filled by
    [__init__] and the interpolator cache. *)
Record ThermoelectricCalculator : Type := {
  p_type_data : gmap string MaterialData;
  n_type_data : gmap string MaterialData;
  interpolators : gmap string Interpolators
}.

(** [f"{material_type}_{composition}"] *)
Definition interp_key (material_type composition : string) : string :=
  material_type +:+ "_" +:+ composition.

(** The body of [create_interpolators] inside its [try]; [None] stands
    for any exception (all are caught and printed). *)
Definition build_interpolators (mat_data : MaterialData) : option Interpolators :=
  let sort_idx := argsort (md_temp mat_data) in
  temps ← fancy_index (md_temp mat_data) sort_idx;
  seebeck ← fancy_index (md_seebeck mat_data) sort_idx;
  resistivity ← fancy_index (md_resistivity mat_data) sort_idx;
  thermal_cond ← fancy_index (md_thermal_cond mat_data) sort_idx;
  s0 ← seebeck !! 0%nat;
  r0 ← resistivity !! 0%nat;
  k0 ← thermal_cond !! 0%nat;
  fs ← interp1d temps seebeck s0 (List.last seebeck NaN);
  fr ← interp1d temps resistivity r0 (List.last resistivity NaN);
  fk ← interp1d temps thermal_cond k0 (List.last thermal_cond NaN);
  Some {| i_seebeck := fs; i_resistivity := fr; i_thermal_cond := fk |}.

Definition create_interpolators (self : ThermoelectricCalculator)
    (material_type composition : string) : ThermoelectricCalculator :=
  let data := if String.eqb material_type "p" then p_type_data self
              else n_type_data self in
  match data !! composition ≫= build_interpolators with
  | Some ips =>
      {| p_type_data := p_type_data self;
         n_type_data := n_type_data self;
         interpolators := <[interp_key material_type composition := ips]> (interpolators self) |}
  | None => self
  end.

(** [if interp_key not in self.interpolators: self.create_interpolators(...)] *)
Definition ensure_interpolators (self : ThermoelectricCalculator)
    (material_type composition : string) : ThermoelectricCalculator :=
  match interpolators self !! interp_key material_type composition with
  | Some _ => self
  | None => create_interpolators self material_type composition
  end.

(** The three property lookups at a node temperature, after
    [T_safe = np.clip(T[i], 300, 700)]. *)
Definition T_safe (t : num) : num := np_clip t (Fin 300) (Fin 700).

Definition seebeck_at (ips : Interpolators) (t : num) : num :=
  interp1d_call (i_seebeck ips) (T_safe t).
Definition resistivity_at (ips : Interpolators) (t : num) : num :=
  interp1d_call (i_resistivity ips) (T_safe t).
Definition thermal_cond_at (ips : Interpolators) (t : num) : num :=
  interp1d_call (i_thermal_cond ips) (T_safe t).

(* ------------------------------------------------------------------ *)
(** ** [np.linalg.solve] *)

(** The library routine (LAPACK [gesv]) is not part of the repository.
    It is modelled as Gaussian elimination with partial pivoting in
    exact arithmetic: a system is reported singular ([LinAlgError],
    [None]) exactly when no non-zero pivot is left, and a system with a
    non-finite entry yields a non-finite result.  The rounding of the
    library routine is not modelled: the properties proved for all
    inputs use a solution only through its length, the tests the program
    makes on it ([isnan], [isinf]) and the clip that follows, and the
    sample runs state bounds on it, not exact values. *)
Module LinAlg.

Definition row : Type := (list Q * Q)%type.

Fixpoint dot (a b : list Q) : Q :=
  match a, b with
  | x :: a', y :: b' => Qred (x * y + dot a' b')
  | _, _ => 0
  end.

(** The row with the largest leading coefficient in absolute value
    (the first one among equals) and the other rows. *)
Fixpoint select_pivot (rows : list row) : option (row * list row) :=
  match rows with
  | [] => None
  | r :: rs =>
      match select_pivot rs with
      | None => if Qeq_bool (hd 0 r.1) 0 then None else Some (r, rs)
      | Some (p, rest) =>
          if Qle_bool (Qabs (hd 0 p.1)) (Qabs (hd 0 r.1))
          then Some (r, rs) else Some (p, r :: rest)
      end
  end.

(** Fractions are kept in lowest terms ([Qred]) throughout. *)
Definition eliminate (piv r : row) : row :=
  let f := Qred (hd 0 r.1 / hd 0 piv.1) in
  (zip_with (fun a b => Qred (a - f * b)) (tl r.1) (tl piv.1), Qred (r.2 - f * piv.2)).

Fixpoint gauss (n : nat) (rows : list row) : option (list Q) :=
  match n with
  | O => match rows with [] => Some [] | _ => None end
  | S n' =>
      match select_pivot rows with
      | None => None
      | Some (piv, rest) =>
          xs ← gauss n' (map (eliminate piv) rest);
          Some (Qred ((piv.2 - dot (tl piv.1) xs) / hd 0 piv.1) :: xs)
      end
  end.

Definition to_Q (x : num) : option Q :=
  match x with Fin q => Some (Qred q) | _ => None end.

Definition solve (A : list (list num)) (b : list num) : option (list num) :=
  match mapM (mapM to_Q) A, mapM to_Q b with
  | Some AQ, Some bQ =>
      map Fin <$> gauss (length bQ) (zip AQ bQ)
  | _, _ => Some (replicate (length b) NaN)
  end.

End LinAlg.

(* ------------------------------------------------------------------ *)
(** ** [calculate_temperature_distribution] *)

(** The coefficient arrays [c1 .. c5] of the reference algorithm. *)
Record Coeffs : Type := {
  c1 : list num;
  c2 : list num;
  c3 : list num;
  c4 : list num;
  c5 : list num
}.

Definition coefficients (J : num) (seebeck resistivity thermal_cond : list num) : Coeffs :=
  {| c1 := zip_with (fun s k => (J * s / k)%num) seebeck thermal_cond;
     c2 := map (fun k => (Fin (-1) / k)%num) thermal_cond;
     c3 := zip_with (fun s k => (fsq s * fsq J / k)%num) seebeck thermal_cond;
     c4 := zip_with (fun s k => (- J * s / k)%num) seebeck thermal_cond;
     c5 := map (fun r => (r * fsq J)%num) resistivity |}.

(** The property arrays: [zeros(n_points)] filled by the loop over
    [range(n_points)]. *)
Definition node_values (f : num -> num) (n_points : nat) (T : list num) : list num :=
  map (fun i => f (get T i)) (seq 0 n_points).

(** [A[i, j] = v] on a matrix stored as a list of rows. *)
Definition mat_set (A : list (list num)) (i j : nat) (v : num) : list (list num) :=
  alter (fun r => <[j := v]> r) i A.

(** One pass of the loop over the interior nodes [i = 1 .. n_points-2]. *)
Definition interior_row (c : Coeffs) (dx : num) (Ab : list (list num) * list num) (i : nat)
    : list (list num) * list num :=
  let A := Ab.1 in
  let b := Ab.2 in
  let A := mat_set A i (i - 1)
             (Fin 1 / (get (c2 c) i * dx))%num in
  let A := mat_set A i i
             (get (c4 c) (i + 1) / get (c2 c) (i + 1)
              - Fin 1 / (get (c2 c) (i + 1) * dx)
              - (Fin 1 - get (c1 c) i * dx) / (get (c2 c) i * dx))%num in
  let A := mat_set A i (i + 1)
             ((Fin 1 - get (c1 c) (i + 1) * dx) / (get (c2 c) (i + 1) * dx)
              - get (c3 c) (i + 1) * dx
              - (Fin 1 - get (c1 c) (i + 1) * dx) * get (c4 c) (i + 1) / get (c2 c) (i + 1))%num in
  let b := <[i := (get (c5 c) (i - 1) * dx)%num]> b in
  (A, b).

(** The linear system of one iteration: Dirichlet rows first, then the
    interior rows. *)
Definition assemble (c : Coeffs) (dx Th Tc : num) (n_points : nat)
    : list (list num) * list num :=
  let A := replicate n_points (replicate n_points (Fin 0)) in
  let b := replicate n_points (Fin 0) in
  let A := mat_set A 0 0 (Fin 1) in
  let b := <[0%nat := Tc]> b in
  let A := mat_set A (n_points - 1) (n_points - 1) (Fin 1) in
  let b := <[(n_points - 1)%nat := Th]> b in
  foldl (interior_row c dx) (A, b) (seq 1 (n_points - 2)).

(** What the loop prints: the non-finite warning, the per-iteration
    change, convergence, and the singular-system warning. *)
Inductive solver_event : Type :=
| LogNonFinite (iteration : nat)
| LogIteration (iteration : nat) (max_change : num)
| LogConverged (iteration : nat)
| LogSingular.

Definition clip_lo (Th Tc : num) : num := (py_min Tc Th * Fin (95 # 100))%num.
Definition clip_hi (Th Tc : num) : num := (py_max Tc Th * Fin (11 # 10))%num.

(** The system assembled from the field [T] in one iteration. *)
Definition iteration_system (ips : Interpolators) (Th Tc : num) (n_points : nat)
    (dx J : num) (T : list num) : list (list num) * list num :=
  let seebeck := node_values (seebeck_at ips) n_points T in
  let resistivity := node_values (resistivity_at ips) n_points T in
  let thermal_cond := node_values (thermal_cond_at ips) n_points T in
  assemble (coefficients J seebeck resistivity thermal_cond) dx Th Tc n_points.

(** The iteration loop, [remaining] iterations to go, [iter_count]
    already done.  [None] is an exception escaping the loop (a missing
    interpolator entry, an index error on an empty grid). *)
Fixpoint iterate (oips : option Interpolators) (Th Tc : num) (n_points : nat)
    (dx J : num) (remaining iter_count : nat) (T : list num)
    : option (list num * list solver_event) :=
  match remaining with
  | O => Some (T, [])
  | S remaining' =>
      ips ← oips;
      if (n_points =? 0)%nat then None else
      let Ab := iteration_system ips Th Tc n_points dx J T in
      match LinAlg.solve Ab.1 Ab.2 with
      | None => Some (linspace Tc Th n_points, [LogSingular])
      | Some sol =>
          let bad := has_nan sol || has_inf sol in
          let T_new := if bad then linspace Tc Th n_points else sol in
          let T_new := map (fun t => np_clip t (clip_lo Th Tc) (clip_hi Th Tc)) T_new in
          max_change ← np_max (map fabs (zip_with fsub T_new T));
          let log := (if bad then [LogNonFinite (S iter_count)] else [])
                       ++ [LogIteration (S iter_count) max_change] in
          if (max_change <? Fin (1 # 100))%num
          then Some (T_new, log ++ [LogConverged (S iter_count)])
          else
            '(T', log') ← iterate oips Th Tc n_points dx J remaining' (S iter_count) T_new;
            Some (T', log ++ log')
      end
  end.

(** The current density the solver works with. *)
Definition solver_J (current_density : num) : num := (current_density * Fin 100)%num.

(** The body of the [try] block. *)
Definition temperature_distribution_body (self : ThermoelectricCalculator)
    (Th Tc : num) (n_points : nat) (material_type composition : string)
    (current_density : num) (max_iter : nat)
    : option (list num * list num * list solver_event) :=
  let L := Fin 1 in
  dx ← pydiv L (of_Z (Z.of_nat n_points - 1));
  let x := linspace (Fin 0) L n_points in
  let T := linspace Tc Th n_points in
  let J := solver_J current_density in
  '(T, log) ← iterate (interpolators self !! interp_key material_type composition)
                 Th Tc n_points dx J max_iter 0 T;
  Some (x, T, log).

Definition calculate_temperature_distribution (self : ThermoelectricCalculator)
    (Th Tc : num) (n_points : nat) (material_type composition : string)
    (current_density : num) (max_iter : nat)
    : ThermoelectricCalculator * (list num * list num) :=
  let self := ensure_interpolators self material_type composition in
  match temperature_distribution_body self Th Tc n_points material_type composition
          current_density max_iter with
  | Some (x, T, _) => (self, (x, T))
  | None => (self, (linspace (Fin 0) (Fin 1) n_points, linspace Tc Th n_points))
  end.

(** The log of the same call. *)
Definition solver_log (self : ThermoelectricCalculator)
    (Th Tc : num) (n_points : nat) (material_type composition : string)
    (current_density : num) (max_iter : nat) : list solver_event :=
  let self := ensure_interpolators self material_type composition in
  match temperature_distribution_body self Th Tc n_points material_type composition
          current_density max_iter with
  | Some (_, _, log) => log
  | None => []
  end.

(* ------------------------------------------------------------------ *)
(** ** [calculate_efficiency] *)

(** The current density the efficiency calculation works with. *)
Definition efficiency_J (current_density : num) : num :=
  (current_density * Fin 10000)%num.

(** The heat-flux array [q]: [zeros(n_points)], entries [1 ..
    n_points-1] from the recurrence, then the boundary entry [q[0]]. *)
Definition heat_flux (c : Coeffs) (dx : num) (T : list num) (n_points : nat) : list num :=
  let q := foldl (fun q k =>
                    <[k := (((Fin 1 / dx - get (c1 c) k) * get T k - get T (k - 1) / dx)
                            / get (c2 c) k)%num]> q)
                 (replicate n_points (Fin 0)) (seq 1 (n_points - 1)) in
  <[0%nat := ((Fin 1 - get (c4 c) 1 * dx) * get q 1
              - get (c3 c) 1 * dx * get T 1
              - get (c5 c) 1 * dx)%num]> q.

(** The two trapezoidal sums, [(cumulative_seebeck,
    cumulative_resistivity)]. *)
Definition cumulative_integrals (seebeck resistivity T : list num) (dx : num)
    (n_points : nat) : num * num :=
  foldl (fun acc m =>
           let T1 := get T m in
           let T2 := get T (m - 1) in
           let avg_seebeck := ((get seebeck m + get seebeck (m - 1)) / Fin 2)%num in
           let avg_resistivity := ((get resistivity m + get resistivity (m - 1)) / Fin 2)%num in
           ((acc.1 + avg_seebeck * (T1 - T2))%num, (acc.2 + avg_resistivity * dx)%num))
        (Fin 0, Fin 0) (seq 1 (n_points - 1)).

(** Everything the final step needs: [J], [q[n_points-1]] and the two
    integrals. *)
Record EfficiencyTerms : Type := {
  et_J : num;
  et_q_last : num;
  et_seebeck_integral : num;
  et_resistivity_integral : num
}.

(** The field the calculation runs on: the one supplied, or the
    20-point linear ramp when [x] or [T] is missing or [x] has fewer than
    three entries. *)
Definition efficiency_field (Th Tc : num) (x T : option (list num)) : list num * list num :=
  match x, T with
  | Some xs, Some Ts =>
      if (length xs <? 3)%nat
      then (linspace (Fin 0) (Fin 1) 20, linspace Tc Th 20)
      else (xs, Ts)
  | _, _ => (linspace (Fin 0) (Fin 1) 20, linspace Tc Th 20)
  end.

(** The computation from the interpolator lookup down to the integrals;
    [None] is an exception (missing interpolator entry, temperature
    array shorter than the position array). *)
Definition efficiency_terms (self : ThermoelectricCalculator) (Th Tc : num)
    (material_type composition : string) (current_density : num)
    (x T : option (list num)) : option EfficiencyTerms :=
  let '(x, T) := efficiency_field Th Tc x T in
  let n_points := length x in
  let dx := ((List.last x NaN - hd NaN x) / of_Z (Z.of_nat n_points - 1))%num in
  _ ← mapM (fun i => T !! i) (seq 0 n_points);
  ips ← interpolators self !! interp_key material_type composition;
  let seebeck := node_values (seebeck_at ips) n_points T in
  let resistivity := node_values (resistivity_at ips) n_points T in
  let thermal_cond := node_values (thermal_cond_at ips) n_points T in
  let J := efficiency_J current_density in
  let c := coefficients J seebeck resistivity thermal_cond in
  let q := heat_flux c dx T n_points in
  let '(cumulative_seebeck, cumulative_resistivity) :=
    cumulative_integrals seebeck resistivity T dx n_points in
  Some {| et_J := J;
          et_q_last := get q (n_points - 1);
          et_seebeck_integral := cumulative_seebeck;
          et_resistivity_integral := cumulative_resistivity |}.

(** [J * (cumulative_seebeck + J * cumulative_resistivity)] *)
Definition raw_power (t : EfficiencyTerms) : num :=
  (et_J t * (et_seebeck_integral t + et_J t * et_resistivity_integral t))%num.

(** The efficiency branch: zero-flux guard, negative clamp, Carnot
    check.  [None] is the [ZeroDivisionError] of [(Th - Tc) / Th]. *)
Definition efficiency_of (Th Tc : num) (t : EfficiencyTerms) : option num :=
  if fneb (et_q_last t) (Fin 0) then
    let efficiency := (raw_power t / et_q_last t * Fin 100)%num in
    let efficiency := if (efficiency <? Fin 0)%num then Fin 0 else efficiency in
    ratio ← pydiv (Th - Tc)%num Th;
    let carnot_eff := (ratio * Fin 100)%num in
    Some (if (efficiency >? carnot_eff)%num then (carnot_eff * Fin (9 # 10))%num
          else efficiency)
  else Some (Fin 0).

(** The body of the [try] block after the [Th <= Tc] test. *)
Definition efficiency_body (self : ThermoelectricCalculator) (Th Tc : num)
    (material_type composition : string) (current_density : num)
    (x T : option (list num)) : option (num * num) :=
  t ← efficiency_terms self Th Tc material_type composition current_density x T;
  efficiency ← efficiency_of Th Tc t;
  Some (efficiency, raw_power t).

Definition calculate_efficiency (self : ThermoelectricCalculator) (Th Tc : num)
    (material_type composition : string) (current_density : num)
    (x T : option (list num)) : ThermoelectricCalculator * (num * num) :=
  if (Th <=? Tc)%num then (self, (Fin 0, Fin 0))
  else
    let self := ensure_interpolators self material_type composition in
    match efficiency_body self Th Tc material_type composition current_density x T with
    | Some r => (self, r)
    | None => (self, (Fin 0, Fin 0))
    end.

(* ------------------------------------------------------------------ *)
(** ** [calculate_zt] *)

(** [ZT = S² T / (κ ρ)] at one temperature, with the absolute value of
    the Seebeck coefficient; the lookups are made at the temperature as
    given.  Any exception (a missing interpolator entry) makes the
    method return [0]. *)
Definition calculate_zt (self : ThermoelectricCalculator)
    (material_type composition : string) (temperature : num)
    : ThermoelectricCalculator * num :=
  let self := ensure_interpolators self material_type composition in
  match interpolators self !! interp_key material_type composition with
  | Some ips =>
      let seebeck := fabs (interp1d_call (i_seebeck ips) temperature) in
      let resistivity := interp1d_call (i_resistivity ips) temperature in
      let thermal_cond := interp1d_call (i_thermal_cond ips) temperature in
      (self, (fsq seebeck * temperature / (thermal_cond * resistivity))%num)
  | None => (self, Fin 0)
  end.

(* ------------------------------------------------------------------ *)
(** ** The sweep of [calculate_device_performance] *)

(** The values computed for one device current [j] of the sweep. *)
Record DevicePoint : Type := {
  dp_j_p : num;
  dp_j_n : num;
  dp_p_eff : num;
  dp_n_eff : num;
  dp_p_power : num;
  dp_n_power : num;
  dp_p_area : num;
  dp_n_area : num;
  dp_total_power : num;
  dp_total_efficiency : num
}.

(** One pass of the loop over [currents].  [None] is an exception, which
    ends the whole method. *)
Definition device_point (calculator : ThermoelectricCalculator) (Th Tc : num)
    (p_composition n_composition : string) (area_ratio : num)
    (x_p T_p x_n T_n : option (list num)) (j : num)
    : option (ThermoelectricCalculator * DevicePoint) :=
  let j_p := (- j)%num in
  let j_n := (j / area_ratio)%num in
  let '(calculator, (p_eff, p_power)) :=
    calculate_efficiency calculator Th Tc "p" p_composition j_p x_p T_p in
  let '(calculator, (n_eff, n_power)) :=
    calculate_efficiency calculator Th Tc "n" n_composition j_n x_n T_n in
  let p_eff := (p_eff / Fin 100)%num in
  let n_eff := (n_eff / Fin 100)%num in
  p_area ← pydiv (Fin 1) (Fin 1 + area_ratio)%num;
  n_area ← pydiv area_ratio (Fin 1 + area_ratio)%num;
  let total_power := (p_power * p_area + n_power * n_area)%num in
  total_efficiency ←
    (if (p_eff >? Fin 0)%num && (n_eff >? Fin 0)%num
     then pydiv (p_eff * p_area + n_eff * n_area)%num (p_area + n_area)%num
     else Some (Fin 0));
  Some (calculator,
        {| dp_j_p := j_p; dp_j_n := j_n;
           dp_p_eff := p_eff; dp_n_eff := n_eff;
           dp_p_power := p_power; dp_n_power := n_power;
           dp_p_area := p_area; dp_n_area := n_area;
           dp_total_power := total_power;
           dp_total_efficiency := total_efficiency |}).

(** The loop: [powers] (in W/cm²) and [efficiencies], in sweep order. *)
Fixpoint device_sweep (calculator : ThermoelectricCalculator) (Th Tc : num)
    (p_composition n_composition : string) (area_ratio : num)
    (x_p T_p x_n T_n : option (list num)) (currents : list num)
    : option (list num * list num) :=
  match currents with
  | [] => Some ([], [])
  | j :: rest =>
      '(calculator, pt) ← device_point calculator Th Tc p_composition n_composition
                            area_ratio x_p T_p x_n T_n j;
      '(powers, efficiencies) ← device_sweep calculator Th Tc p_composition n_composition
                                  area_ratio x_p T_p x_n T_n rest;
      Some ((dp_total_power pt / Fin 10000)%num :: powers,
            dp_total_efficiency pt :: efficiencies)
  end.

Definition sweep_currents : list num := linspace (Fin (1 # 10)) (Fin 4) 40.


(* ------------------------------------------------------------------ *)
(** ** The efficiency curves of [update_efficiency_plots] and
    [analyze_efficiency_curve] *)

(** The loop [for j in currents: eff, power = calculate_efficiency(...);
    if eff > 0: ...append(...)]: the currents with a positive efficiency,
    their efficiencies and powers, in sweep order.  The calculator is
    threaded through the calls.  [update_efficiency_plots] runs the same
    loop and keeps the first two lists only. *)
Fixpoint efficiency_curve (calculator : ThermoelectricCalculator) (Th Tc : num)
    (material_type composition : string) (x T : option (list num))
    (currents : list num)
    : ThermoelectricCalculator * (list num * list num * list num) :=
  match currents with
  | [] => (calculator, ([], [], []))
  | j :: rest =>
      let '(calculator, (eff, power)) :=
        calculate_efficiency calculator Th Tc material_type composition j x T in
      let '(calculator, (valid_currents, efficiencies, powers)) :=
        efficiency_curve calculator Th Tc material_type composition x T rest in
      if (eff >? Fin 0)%num
      then (calculator, (j :: valid_currents, eff :: efficiencies, power :: powers))
      else (calculator, (valid_currents, efficiencies, powers))
  end.

(** The current ranges of the four curves. *)
Definition p_currents : list num := linspace (Fin (-30)) (Fin 0) 16.
Definition n_currents : list num := linspace (Fin 0) (Fin 50) 51.
Definition p_analysis_currents : list num := linspace (Fin (-5 # 2)) (Fin 0) 26.
Definition n_analysis_currents : list num := linspace (Fin 20) (Fin 50) 31.
(* ------------------------------------------------------------------ *)
(** ** Sample calculators and tables *)

(** A calculator whose data files could not be read: both dictionaries
    are empty. *)
Definition empty_calculator : ThermoelectricCalculator :=
  {| p_type_data := ∅; n_type_data := ∅; interpolators := ∅ |}.

(** A two-sample table with temperature-independent properties. *)
Definition const_table (s r k : Q) : MaterialData :=
  {| md_temp := [Fin 300; Fin 700];
     md_seebeck := [Fin s; Fin s];
     md_resistivity := [Fin r; Fin r];
     md_thermal_cond := [Fin k; Fin k] |}.

Definition p_calculator (tbl : MaterialData) : ThermoelectricCalculator :=
  {| p_type_data := {["0.02" := tbl]}; n_type_data := ∅; interpolators := ∅ |}.

Definition n_calculator (tbl : MaterialData) : ThermoelectricCalculator :=
  {| p_type_data := ∅; n_type_data := {["0.0004" := tbl]}; interpolators := ∅ |}.

(** The Carnot limit in percent, [(Th - Tc) / Th * 100]. *)
Definition carnot_limit (Th Tc : num) : num := ((Th - Tc) / Th * Fin 100)%num.

(** A P-type leg (S = 100 µV/K, κ = 10 W/(m·K), ρ = 0) with a field
    that overshoots to the upper clip bound in the middle. *)
Definition negative_power_calculator : ThermoelectricCalculator :=
  p_calculator (const_table (1 # 10000) 0 10).
Definition negative_power_x : option (list num) :=
  Some [Fin 0; Fin (1 # 2); Fin 1].
Definition negative_power_T : option (list num) :=
  Some [Fin 300; Fin 550; Fin 500].

(** An N-type leg (S = -100 µV/K, κ = 0.1 W/(m·K), ρ = 0). *)
Definition carnot_gap_calculator : ThermoelectricCalculator :=
  n_calculator (const_table (-1 # 10000) 0 (1 # 10)).

(** A P-type table whose resistivity column has no value above 400 K
    (missing cells are read as [NaN]); S = 0, κ = 1 W/(m·K), ρ = 1 Ω·m. *)
Definition nan_table : MaterialData :=
  {| md_temp := [Fin 300; Fin 400; Fin 401; Fin 700];
     md_seebeck := [Fin 0; Fin 0; Fin 0; Fin 0];
     md_resistivity := [Fin 1; Fin 1; NaN; NaN];
     md_thermal_cond := [Fin 1; Fin 1; Fin 1; Fin 1] |}.

(** [lo <= v <= hi], as the program would test it. *)
Definition within_bounds (lo hi v : num) : Prop :=
  (lo <=? v)%num = true /\ (v <=? hi)%num = true.

(** A finite value between two rationals. *)
Definition finite_between (l u : Q) (v : num) : Prop :=
  exists q : Q, v = Fin q /\ l <= q <= u.

(** The shape of every system the solver assembles: [n] equations in
    [n] unknowns. *)
Definition system_shape (n : nat) (Ab : list (list num) * list num) : Prop :=
  length Ab.1 = n /\ Forall (fun r => length r = n) Ab.1 /\ length Ab.2 = n.

(** The samples of a table in the order [create_interpolators] puts
    them: pairs (temperature, original index), ascending. *)
Definition sorted_samples (mat_data : MaterialData) : list (num * nat) :=
  sort_keys (combine (md_temp mat_data) (seq 0 (length (md_temp mat_data)))).

(** A well-formed table: four columns of one length, at least two
    samples, finite and pairwise distinct temperatures. *)
Definition valid_table (mat_data : MaterialData) : Prop :=
  (2 <= length (md_temp mat_data))%nat /\
  length (md_seebeck mat_data) = length (md_temp mat_data) /\
  length (md_resistivity mat_data) = length (md_temp mat_data) /\
  length (md_thermal_cond mat_data) = length (md_temp mat_data) /\
  Forall (fun t => isfinite t = true) (md_temp mat_data) /\
  (forall (i j : nat) (ti tj : num),
      md_temp mat_data !! i = Some ti -> md_temp mat_data !! j = Some tj ->
      i <> j -> (ti =? tj)%num = false).

(** The interpolator [create_interpolators] builds for one property
    column. *)
Definition column_interpolator (mat_data : MaterialData) (column : list num) : Interp1d :=
  let sp := sorted_samples mat_data in
  {| ip_x := map fst sp;
     ip_y := map (fun p => get column p.2) sp;
     ip_below := get column (hd (NaN, 0%nat) sp).2;
     ip_above := get column (List.last sp (NaN, 0%nat)).2 |}.

(** A table whose samples are not in temperature order. *)
Definition unsorted_table : MaterialData :=
  {| md_temp := [Fin 700; Fin 300; Fin 500];
     md_seebeck := [Fin 3; Fin 1; Fin 2];
     md_resistivity := [Fin 30; Fin 10; Fin 20];
     md_thermal_cond := [Fin 300; Fin 100; Fin 200] |}.

(** [data[composition]] with [data] chosen by the material type, as
    [create_interpolators] reads it; [None] is a missing key. *)
Definition material_table (self : ThermoelectricCalculator)
    (material_type composition : string) : option MaterialData :=
  (if String.eqb material_type "p" then p_type_data self else n_type_data self)
    !! composition.

(** The three interpolators of a table. *)
Definition table_interpolators (md : MaterialData) : Interpolators :=
  {| i_seebeck := column_interpolator md (md_seebeck md);
     i_resistivity := column_interpolator md (md_resistivity md);
     i_thermal_cond := column_interpolator md (md_thermal_cond md) |}.

(** A value that is zero or not a number. *)
Definition zero_or_nan (v : num) : Prop := (v =? Fin 0)%num = true \/ isnan v = true.

(** The iterations a log records: one per reported change, and the one
    that ended on a singular system. *)
Fixpoint iterations_run (log : list solver_event) : nat :=
  match log with
  | [] => 0
  | (LogIteration _ _ | LogSingular) :: rest => S (iterations_run rest)
  | _ :: rest => iterations_run rest
  end.

(** The loop left through one of its two [break] statements. *)
Definition stopped_early (log : list solver_event) : Prop :=
  match List.last log (LogNonFinite 0) with
  | LogConverged _ | LogSingular => True
  | _ => False
  end.

(** The entries with a positive efficiency of a list of [(j, (eff,
    power))], as three lists. *)
Fixpoint positive_points (results : list (num * (num * num)))
    : list num * list num * list num :=
  match results with
  | [] => ([], [], [])
  | (j, (eff, power)) :: rest =>
      let '(valid_currents, efficiencies, powers) := positive_points rest in
      if (eff >? Fin 0)%num
      then (j :: valid_currents, eff :: efficiencies, power :: powers)
      else (valid_currents, efficiencies, powers)
  end.

(** A P-type table with [S(500 K) = -0.04 V/K]: on three nodes between
    300 K and 500 K at 1 A/cm² the middle equation of the first system
    has a zero diagonal entry and the system is singular. *)
Definition singular_table : MaterialData :=
  {| md_temp := [Fin 300; Fin 400; Fin 500];
     md_seebeck := [Fin 0; Fin 0; Fin (-1 # 25)];
     md_resistivity := [Fin 1; Fin 1; Fin 1];
     md_thermal_cond := [Fin 1; Fin 1; Fin 1] |}.

(** A leg with Joule heating only: S = 0, ρ = 8e-4 Ω·m, κ = 1 W/(m·K). *)
Definition joule_table : MaterialData := const_table 0 (8 # 10000) 1.
(* ------------------------------------------------------------------ *)
(** * Properties *)

(** ** Comparisons on finite values *)

Lemma fltb_Fin (a b : Q) : (Fin a <? Fin b)%num = true <-> a < b.
Proof.
  unfold fltb. rewrite Qlt_alt. destruct (a ?= b); split; congruence.
Qed.

Lemma fltb_Fin_false (a b : Q) : (Fin a <? Fin b)%num = false <-> b <= a.
Proof.
  rewrite <- not_true_iff_false, fltb_Fin. split.
  - apply Qnot_lt_le.
  - apply Qle_not_lt.
Qed.

Lemma feqb_Fin (a b : Q) : (Fin a =? Fin b)%num = true <-> a == b.
Proof. apply Qeq_bool_iff. Qed.

Lemma feqb_Fin_false (a b : Q) : (Fin a =? Fin b)%num = false <-> ~ a == b.
Proof. rewrite <- not_true_iff_false, feqb_Fin. tauto. Qed.

Lemma fleb_Fin (a b : Q) : (Fin a <=? Fin b)%num = true <-> a <= b.
Proof.
  unfold fleb. rewrite orb_true_iff, fltb_Fin, feqb_Fin, Qle_lteq. tauto.
Qed.

Lemma fltb_irrefl (x : num) : (x <? x)%num = false.
Proof.
  destruct x; try reflexivity. apply fltb_Fin_false. apply Qle_refl.
Qed.

(** [Th > Tc] makes the test [Th <= Tc] fail. *)
Lemma fltb_not_fleb (x y : num) : (x <? y)%num = true -> (y <=? x)%num = false.
Proof.
  destruct x as [a| | |], y as [b| | |]; try discriminate; try reflexivity.
  intros H. apply fltb_Fin in H. apply not_true_iff_false.
  rewrite fleb_Fin. apply Qlt_not_le, H.
Qed.

Lemma Qeq_bool_false_iff (a b : Q) : Qeq_bool a b = false <-> ~ a == b.
Proof. rewrite <- not_true_iff_false, Qeq_bool_iff. tauto. Qed.

Lemma fdiv_Fin (a b : Q) : ~ b == 0 -> (Fin a / Fin b)%num = Fin (a / b).
Proof.
  intros H. unfold fdiv. apply Qeq_bool_false_iff in H. now rewrite H.
Qed.

Lemma pydiv_Fin (a b : Q) : ~ b == 0 -> pydiv (Fin a) (Fin b) = Some (Fin (a / b)).
Proof.
  intros H. unfold pydiv. rewrite fdiv_Fin by assumption.
  apply Qeq_bool_false_iff in H. now rewrite H.
Qed.

(* ------------------------------------------------------------------ *)
(** ** The [Th <= Tc] precondition *)

(** C5.  Whatever the material type, composition, current density and
    temperature field, [calculate_efficiency] called with [Th <= Tc]
    returns exactly [(0.0, 0.0)]; it is a value, not an exception, and
    the calculator is left as it was. *)
Theorem calculate_efficiency_invalid_boundary
    (self : ThermoelectricCalculator) (Th Tc : num)
    (material_type composition : string) (current_density : num)
    (x T : option (list num)) :
  (Th <=? Tc)%num = true ->
  calculate_efficiency self Th Tc material_type composition current_density x T
  = (self, (Fin 0, Fin 0)).
Proof.
  intros Hle. unfold calculate_efficiency. now rewrite Hle.
Qed.

Lemma calculate_efficiency_invalid_boundary_witness :
  (Fin 300 <=? Fin 300)%num = true /\
  calculate_efficiency empty_calculator (Fin 300) (Fin 300) "p" "0.02" (Fin (-1)) None None
  = (empty_calculator, (Fin 0, Fin 0)).
Proof.
  split; [reflexivity|].
  apply calculate_efficiency_invalid_boundary. reflexivity.
Defined.

(* ------------------------------------------------------------------ *)
(** ** The final step of [calculate_efficiency] *)

(** What [calculate_efficiency] returns once the precondition holds, in
    terms of the body of its [try] block. *)
Lemma calculate_efficiency_valid
    (self : ThermoelectricCalculator) (Th Tc : num)
    (material_type composition : string) (current_density : num)
    (x T : option (list num)) :
  (Tc <? Th)%num = true ->
  (calculate_efficiency self Th Tc material_type composition current_density x T).2
  = default (Fin 0, Fin 0)
      (efficiency_body (ensure_interpolators self material_type composition)
         Th Tc material_type composition current_density x T).
Proof.
  intros Hlt. unfold calculate_efficiency.
  rewrite (fltb_not_fleb _ _ Hlt).
  now destruct efficiency_body.
Qed.

Lemma feqb_true_fneb (x y : num) : (x =? y)%num = true -> fneb x y = false.
Proof. unfold fneb. now intros ->. Qed.

(** C9.  With [Th > Tc], when the computation reaches the efficiency
    step with a reconstructed heat flux [q[n_points-1]] equal to zero,
    the division is skipped: the returned efficiency is exactly [0] (and
    the power is still the one computed from the integrals). *)
Theorem calculate_efficiency_zero_heat_flux
    (self : ThermoelectricCalculator) (Th Tc : num)
    (material_type composition : string) (current_density : num)
    (x T : option (list num)) (t : EfficiencyTerms) :
  (Tc <? Th)%num = true ->
  efficiency_terms (ensure_interpolators self material_type composition)
    Th Tc material_type composition current_density x T = Some t ->
  (et_q_last t =? Fin 0)%num = true ->
  (calculate_efficiency self Th Tc material_type composition current_density x T).2
  = (Fin 0, raw_power t).
Proof.
  intros Hlt Ht Hq.
  rewrite calculate_efficiency_valid by assumption.
  unfold efficiency_body. rewrite Ht. simpl.
  unfold efficiency_of. rewrite (feqb_true_fneb _ _ Hq). reflexivity.
Qed.

(** The guard is reached on a three-node field: with S = 100 µV/K, κ = 1
    and 1 A/cm² the flux at the last node is [(2 - 1) * 500 - 250 / 0.5
    = 0]. *)
Lemma calculate_efficiency_zero_heat_flux_witness :
  (calculate_efficiency (p_calculator (const_table (1 # 10000) 0 1))
     (Fin 500) (Fin 300) "p" "0.02" (Fin 1)
     (Some [Fin 0; Fin (1 # 2); Fin 1]) (Some [Fin 300; Fin 250; Fin 500])).2.1 = Fin 0.
Proof.
  set (self := p_calculator (const_table (1 # 10000) 0 1)).
  set (x := Some [Fin 0; Fin (1 # 2); Fin 1]).
  set (T := Some [Fin 300; Fin 250; Fin 500]).
  destruct (efficiency_terms (ensure_interpolators self "p" "0.02")
              (Fin 500) (Fin 300) "p" "0.02" (Fin 1) x T) as [t|] eqn:Ht;
    [|vm_compute in Ht; discriminate].
  rewrite (calculate_efficiency_zero_heat_flux self (Fin 500) (Fin 300)
             "p" "0.02" (Fin 1) x T t); [reflexivity | reflexivity | exact Ht |].
  vm_compute in Ht. injection Ht as <-. vm_compute. reflexivity.
Defined.

(** The current density recorded by the calculation is the input times
    10000. *)
Lemma efficiency_terms_J
    (self : ThermoelectricCalculator) (Th Tc : num)
    (material_type composition : string) (current_density : num)
    (x T : option (list num)) (t : EfficiencyTerms) :
  efficiency_terms self Th Tc material_type composition current_density x T = Some t ->
  et_J t = (current_density * Fin 10000)%num.
Proof.
  unfold efficiency_terms. intros Ht.
  destruct efficiency_field as [x' T'].
  destruct (mapM _ _); [|discriminate]. simpl in Ht.
  destruct (interpolators _ !! _); [|discriminate]. simpl in Ht.
  destruct cumulative_integrals. injection Ht as <-. reflexivity.
Qed.

(** C10.  With [Th > Tc] and no exception inside the [try] block, the
    returned power density is [J * (cumulative_seebeck + J *
    cumulative_resistivity)] with [J = current_density * 10000], computed
    from the integrals as they are: neither the zero-flux guard, nor the
    zeroing of a negative efficiency, nor the Carnot cap touches it. *)
Theorem calculate_efficiency_power_unclamped
    (self : ThermoelectricCalculator) (Th Tc : num)
    (material_type composition : string) (current_density : num)
    (x T : option (list num)) (r : num * num) :
  (Tc <? Th)%num = true ->
  efficiency_body (ensure_interpolators self material_type composition)
    Th Tc material_type composition current_density x T = Some r ->
  exists t : EfficiencyTerms,
    efficiency_terms (ensure_interpolators self material_type composition)
      Th Tc material_type composition current_density x T = Some t /\
    et_J t = (current_density * Fin 10000)%num /\
    (calculate_efficiency self Th Tc material_type composition current_density x T).2.2
    = (et_J t * (et_seebeck_integral t + et_J t * et_resistivity_integral t))%num.
Proof.
  intros Hlt Hbody.
  rewrite calculate_efficiency_valid by assumption. rewrite Hbody.
  unfold efficiency_body in Hbody.
  destruct efficiency_terms as [t|] eqn:Ht; [|discriminate].
  exists t. split; [reflexivity|]. split.
  - eapply efficiency_terms_J, Ht.
  - simpl in Hbody. destruct (efficiency_of Th Tc t); [|discriminate].
    injection Hbody as <-. reflexivity.
Qed.

(** A negative efficiency is zeroed while the (negative) power is
    returned as computed. *)
Lemma calculate_efficiency_power_unclamped_witness :
  (calculate_efficiency negative_power_calculator (Fin 500) (Fin 300) "p" "0.02"
     (Fin (-1)) negative_power_x negative_power_T).2.1 = Fin 0 /\
  exists t : EfficiencyTerms,
    (calculate_efficiency negative_power_calculator (Fin 500) (Fin 300) "p" "0.02"
       (Fin (-1)) negative_power_x negative_power_T).2.2
    = (et_J t * (et_seebeck_integral t + et_J t * et_resistivity_integral t))%num /\
    (et_J t * (et_seebeck_integral t + et_J t * et_resistivity_integral t)
       =? Fin (-200))%num = true.
Proof.
  split; [vm_compute; reflexivity|].
  destruct (efficiency_body (ensure_interpolators negative_power_calculator "p" "0.02")
              (Fin 500) (Fin 300) "p" "0.02" (Fin (-1))
              negative_power_x negative_power_T) as [r|] eqn:Hr;
    [|vm_compute in Hr; discriminate].
  destruct (calculate_efficiency_power_unclamped negative_power_calculator
              (Fin 500) (Fin 300) "p" "0.02" (Fin (-1))
              negative_power_x negative_power_T r eq_refl Hr) as (t & _ & _ & Ht).
  exists t. split; [exact Ht|].
  rewrite <- Ht. vm_compute. reflexivity.
Defined.

(* ------------------------------------------------------------------ *)
(** ** The Carnot check *)

(** For a positive hot-side temperature above the cold side, the Carnot
    limit is [+inf] or a positive number. *)
Lemma carnot_limit_positive (h : Q) (Tc : num) :
  0 < h -> (Tc <? Fin h)%num = true ->
  carnot_limit (Fin h) Tc = PInf \/ exists c : Q, carnot_limit (Fin h) Tc = Fin c /\ 0 < c.
Proof.
  intros Hh Hlt. assert (Hh0 : ~ h == 0) by lra.
  destruct Tc as [c| | |]; try discriminate.
  - right. apply fltb_Fin in Hlt. unfold carnot_limit. simpl fsub.
    rewrite fdiv_Fin by assumption. simpl. eexists; split; [reflexivity|].
    apply Qmult_lt_0_compat; [|reflexivity].
    apply Qlt_shift_div_l; lra.
  - left. unfold carnot_limit. simpl.
    destruct (h ?= 0) eqn:Hc; try reflexivity.
    apply Qlt_alt in Hc. lra.
Qed.

Lemma fgtb_carnot_cap (c : num) :
  (c = PInf \/ exists q : Q, c = Fin q /\ 0 < q) ->
  (c * Fin (9 # 10) >? c)%num = false /\ (Fin 0 >? c)%num = false.
Proof.
  intros [->|(q & -> & Hq)].
  - split; reflexivity.
  - unfold fgtb. simpl fmul. split; apply fltb_Fin_false; lra.
Qed.

(** C1 (as amended).  For a call with [Th > Tc] and [Th > 0], the
    returned efficiency never exceeds the Carnot limit [(Th - Tc) / Th *
    100] itself.  The cap to 90% of the limit is applied only when the
    value computed from the integrals exceeds the whole limit: a computed
    value between 90% and 100% of it is returned as it is. *)
Theorem calculate_efficiency_carnot_bound
    (self : ThermoelectricCalculator) (h : Q) (Tc : num)
    (material_type composition : string) (current_density : num)
    (x T : option (list num)) :
  0 < h -> (Tc <? Fin h)%num = true ->
  let efficiency :=
    (calculate_efficiency self (Fin h) Tc material_type composition current_density x T).2.1 in
  (efficiency >? carnot_limit (Fin h) Tc)%num = false /\
  (forall t : EfficiencyTerms,
      efficiency_terms (ensure_interpolators self material_type composition)
        (Fin h) Tc material_type composition current_density x T = Some t ->
      fneb (et_q_last t) (Fin 0) = true ->
      let computed := (raw_power t / et_q_last t * Fin 100)%num in
      let computed := if (computed <? Fin 0)%num then Fin 0 else computed in
      efficiency = if (computed >? carnot_limit (Fin h) Tc)%num
                   then (carnot_limit (Fin h) Tc * Fin (9 # 10))%num
                   else computed).
Proof.
  intros Hh Hlt efficiency. subst efficiency.
  rewrite calculate_efficiency_valid by assumption.
  assert (Hh0 : ~ h == 0) by lra.
  assert (Hdiv : pydiv (Fin h - Tc)%num (Fin h) = Some ((Fin h - Tc) / Fin h)%num).
  { unfold pydiv. apply Qeq_bool_false_iff in Hh0. now rewrite Hh0. }
  destruct (fgtb_carnot_cap _ (carnot_limit_positive h Tc Hh Hlt)) as [Hcap Hzero].
  unfold efficiency_body.
  destruct efficiency_terms as [t|]; cbn [mbind option_bind default fst snd];
    [|split; [exact Hzero|discriminate]].
  unfold efficiency_of. rewrite Hdiv.
  destruct (fneb (et_q_last t) (Fin 0)) eqn:Hq; cbn [mbind option_bind default fst snd id].
  - fold (carnot_limit (Fin h) Tc).
    set (computed := if (_ <? Fin 0)%num then Fin 0 else _).
    split.
    + destruct (computed >? carnot_limit (Fin h) Tc)%num eqn:Hc; assumption.
    + intros t' [= <-] _. reflexivity.
  - split; [exact Hzero|]. intros t' [= <-] Hq'. congruence.
Qed.

Lemma calculate_efficiency_carnot_bound_witness :
  ((calculate_efficiency carnot_gap_calculator (Fin 500) (Fin 300)
      "n" "0.0004" (Fin 1) None None).2.1 >? carnot_limit (Fin 500) (Fin 300))%num = false.
Proof.
  apply (calculate_efficiency_carnot_bound carnot_gap_calculator 500 (Fin 300)
           "n" "0.0004" (Fin 1) None None); reflexivity.
Defined.

(** C1 (as stated) fails: on an N-type leg with S = -100 µV/K and κ =
    0.1 W/(m·K) between 300 K and 500 K at 1 A/cm², the returned
    efficiency (about 38.5 %) is above 90% of the Carnot limit (36 %). *)
Lemma calculate_efficiency_exceeds_90_percent_of_carnot :
  (Fin 300 <? Fin 500)%num = true /\
  ((calculate_efficiency carnot_gap_calculator (Fin 500) (Fin 300)
      "n" "0.0004" (Fin 1) None None).2.1
   >? Fin (9 # 10) * carnot_limit (Fin 500) (Fin 300))%num = true /\
  ((calculate_efficiency carnot_gap_calculator (Fin 500) (Fin 300)
      "n" "0.0004" (Fin 1) None None).2.1
   =? Fin (5000 # 130))%num = true.
Proof. vm_compute. repeat split. Qed.

(* ------------------------------------------------------------------ *)
(** ** Device aggregation *)

Lemma pydiv_nonzero (x y : num) : (y =? Fin 0)%num = false -> pydiv x y = Some (x / y)%num.
Proof.
  destruct y as [b| | |]; try reflexivity.
  unfold pydiv. simpl. now intros ->.
Qed.

Lemma one_plus_positive (r : num) :
  (Fin 0 <? r)%num = true -> (Fin 1 + r =? Fin 0)%num = false.
Proof.
  destruct r as [q| | |]; try discriminate; try reflexivity.
  intros H. apply fltb_Fin in H. apply feqb_Fin_false. lra.
Qed.

Lemma area_fractions_sum (r : num) :
  (Fin 0 <? r)%num = true ->
  (Fin 1 / (Fin 1 + r) + r / (Fin 1 + r) =? Fin 0)%num = false.
Proof.
  destruct r as [q| | |]; try discriminate; try reflexivity.
  intros H. apply fltb_Fin in H. simpl fadd at 2 3.
  rewrite !fdiv_Fin by lra. simpl. apply Qeq_bool_false_iff.
  intros E. assert (E' : 1 / (1 + q) + q / (1 + q) == 1) by (field; lra). lra.
Qed.

(** C8.  For an area ratio [r > 0] and any device current [j] the sweep
    body runs without exception and computes: leg currents [j_p = -j]
    and [j_n = j / r]; area fractions [p_area = 1 / (1 + r)] and [n_area
    = r / (1 + r)]; total power [p_power * p_area + n_power * n_area];
    and total efficiency the area-weighted mean [(p_eff * p_area + n_eff
    * n_area) / (p_area + n_area)] of the two branch efficiencies when
    both are positive, [0] otherwise.  The branch values are those of
    [calculate_efficiency] at the two leg currents. *)
Theorem device_point_aggregation
    (calculator : ThermoelectricCalculator) (Th Tc : num)
    (p_composition n_composition : string) (area_ratio : num)
    (x_p T_p x_n T_n : option (list num)) (j : num) :
  (Fin 0 <? area_ratio)%num = true ->
  let p := calculate_efficiency calculator Th Tc "p" p_composition (- j)%num x_p T_p in
  let n := calculate_efficiency p.1 Th Tc "n" n_composition (j / area_ratio)%num x_n T_n in
  let p_eff := (p.2.1 / Fin 100)%num in
  let n_eff := (n.2.1 / Fin 100)%num in
  let p_area := (Fin 1 / (Fin 1 + area_ratio))%num in
  let n_area := (area_ratio / (Fin 1 + area_ratio))%num in
  device_point calculator Th Tc p_composition n_composition area_ratio x_p T_p x_n T_n j
  = Some (n.1,
          {| dp_j_p := (- j)%num;
             dp_j_n := (j / area_ratio)%num;
             dp_p_eff := p_eff;
             dp_n_eff := n_eff;
             dp_p_power := p.2.2;
             dp_n_power := n.2.2;
             dp_p_area := p_area;
             dp_n_area := n_area;
             dp_total_power := (p.2.2 * p_area + n.2.2 * n_area)%num;
             dp_total_efficiency :=
               if (p_eff >? Fin 0)%num && (n_eff >? Fin 0)%num
               then ((p_eff * p_area + n_eff * n_area) / (p_area + n_area))%num
               else Fin 0 |}).
Proof.
  intros Hr p n p_eff n_eff p_area n_area.
  unfold device_point. fold p.
  destruct p as [calculator' [p_eff0 p_power]] eqn:Hp. cbn [fst snd] in n. fold n.
  destruct n as [calculator'' [n_eff0 n_power]] eqn:Hn.
  rewrite !(pydiv_nonzero _ _ (one_plus_positive _ Hr)).
  cbn [mbind option_bind fst snd].
  fold p_area n_area. subst p_eff n_eff. cbn [fst snd].
  destruct ((p_eff0 / Fin 100 >? Fin 0)%num && (n_eff0 / Fin 100 >? Fin 0)%num).
  - rewrite (pydiv_nonzero _ _ (area_fractions_sum _ Hr)). reflexivity.
  - reflexivity.
Qed.

Lemma device_point_aggregation_witness :
  exists (c : ThermoelectricCalculator) (pt : DevicePoint),
    device_point carnot_gap_calculator (Fin 500) (Fin 300) "0.02" "0.0004" (Fin 2)
      None None None None (Fin 1) = Some (c, pt) /\
    dp_j_p pt = Fin (-1) /\ dp_j_n pt = (Fin 1 / Fin 2)%num /\
    dp_p_area pt = (Fin 1 / (Fin 1 + Fin 2))%num /\
    dp_n_area pt = (Fin 2 / (Fin 1 + Fin 2))%num.
Proof.
  eexists _, _. split.
  - apply (device_point_aggregation carnot_gap_calculator (Fin 500) (Fin 300)
             "0.02" "0.0004" (Fin 2) None None None None (Fin 1)). reflexivity.
  - repeat split.
Defined.

(* ------------------------------------------------------------------ *)
(** ** The non-finite solution in the iteration loop *)

(** C2.  The two fallbacks of the loop differ.  On a table whose
    resistivity is missing above 400 K (300 K / 500 K, four nodes,
    1 A/cm², three iterations) the solution of the second iteration is
    not finite: the ramp is substituted, but the loop goes on, a third
    iteration runs from the ramp, and the field returned is not the ramp
    (its second node is above 500 K).  On a singular system (three nodes,
    S(500 K) = -0.04 V/K) the handler of [LinAlgError] substitutes the
    ramp and leaves the loop at once: nothing else is logged and the ramp
    is returned. *)
Theorem nonfinite_fallback_keeps_iterating :
  (exists m1 m2 m3 : num,
      solver_log (p_calculator nan_table) (Fin 500) (Fin 300) 4 "p" "0.02" (Fin 1) 3
      = [LogIteration 1 m1; LogNonFinite 2; LogIteration 2 m2; LogIteration 3 m3]) /\
  (Fin 500 <? get (calculate_temperature_distribution (p_calculator nan_table)
                     (Fin 500) (Fin 300) 4 "p" "0.02" (Fin 1) 3).2.2 1)%num = true /\
  array_equal
    (calculate_temperature_distribution (p_calculator nan_table)
       (Fin 500) (Fin 300) 4 "p" "0.02" (Fin 1) 3).2.2
    (linspace (Fin 300) (Fin 500) 4) = false /\
  solver_log (p_calculator singular_table) (Fin 500) (Fin 300) 3 "p" "0.02" (Fin 1) 3
  = [LogSingular] /\
  array_equal
    (calculate_temperature_distribution (p_calculator singular_table)
       (Fin 500) (Fin 300) 3 "p" "0.02" (Fin 1) 3).2.2
    (linspace (Fin 300) (Fin 500) 3) = true.
Proof.
  split.
  - exists (Fin (5500 # 30)), (Fin (5500 # 30)), (Fin (5500 # 30)).
    vm_compute. reflexivity.
  - vm_compute. repeat split.
Qed.

(* ------------------------------------------------------------------ *)
(** ** Range of the returned field *)

Lemma finite_between_within (l u : Q) (v : num) :
  finite_between l u v -> within_bounds (Fin l) (Fin u) v.
Proof.
  intros (q & -> & Hl & Hu). split; apply fleb_Fin; assumption.
Qed.

Lemma finite_between_weaken (l u l' u' : Q) (v : num) :
  l' <= l -> u <= u' -> finite_between l u v -> finite_between l' u' v.
Proof.
  intros Hl Hu (q & -> & Hq). exists q. split; [reflexivity|lra].
Qed.

Lemma ramp_bounds (a b i m : Q) :
  0 <= i -> i <= m -> 0 < m ->
  (a <= b -> a <= i * ((b + - a) / m) + a <= b) /\
  (b <= a -> b <= i * ((b + - a) / m) + a <= a).
Proof.
  intros Hi Him Hm.
  assert (Hd : m * ((b + - a) / m) == b - a) by (field; lra).
  set (d := (b + - a) / m) in *.
  split; intros Hab.
  - assert (0 <= d) by (apply Qle_shift_div_l; lra). nra.
  - assert (d <= 0) by (apply Qle_shift_div_r; lra). nra.
Qed.

Lemma inject_nat_nonneg (i : nat) : 0 <= inject_Z (Z.of_nat i).
Proof. change 0 with (inject_Z 0). rewrite <- Zle_Qle. lia. Qed.

Lemma inject_nat_le (i j : nat) : (i <= j)%nat -> inject_Z (Z.of_nat i) <= inject_Z (Z.of_nat j).
Proof. intros H. rewrite <- Zle_Qle. lia. Qed.

Lemma inject_nat_pos (i : nat) : (0 < i)%nat -> 0 < inject_Z (Z.of_nat i).
Proof. intros H. change 0 with (inject_Z 0). rewrite <- Zlt_Qlt. lia. Qed.

(** An interior entry of a finite ramp. *)
Lemma linspace_entry (a b : Q) (i m : nat) :
  (0 < m)%nat ->
  (of_nat i * ((Fin b - Fin a) / of_nat m) + Fin a)%num
  = Fin (inject_Z (Z.of_nat i) * ((b + - a) / inject_Z (Z.of_nat m)) + a).
Proof.
  intros Hm. unfold of_nat. simpl fsub.
  rewrite fdiv_Fin; [reflexivity|].
  pose proof (inject_nat_pos m Hm). lra.
Qed.

(** Every entry of the ramp between two finite temperatures is finite
    and lies between them. *)
Lemma linspace_between (a b l u : Q) (n : nat) :
  l <= a -> l <= b -> a <= u -> b <= u ->
  Forall (finite_between l u) (linspace (Fin a) (Fin b) n).
Proof.
  intros Hla Hlb Hau Hbu.
  destruct n as [|[|k]].
  - constructor.
  - repeat constructor. exists a. split; [reflexivity|lra].
  - change (linspace (Fin a) (Fin b) (S (S k)))
      with (map (fun i => (of_nat i * ((Fin b - Fin a) / of_nat (S k)) + Fin a)%num)
              (seq 0 (S k)) ++ [Fin b]).
    apply Forall_app. split.
    + apply List.Forall_map, List.Forall_forall. intros i Hi.
      apply in_seq in Hi. rewrite linspace_entry by lia.
      eexists; split; [reflexivity|].
      pose proof (ramp_bounds a b (inject_Z (Z.of_nat i)) (inject_Z (Z.of_nat (S k)))
                    (inject_nat_nonneg i) (inject_nat_le i (S k) ltac:(lia))
                    (inject_nat_pos (S k) ltac:(lia))) as [H1 H2].
      destruct (Qlt_le_dec b a) as [Hba|Hab].
      * specialize (H2 ltac:(lra)). lra.
      * specialize (H1 Hab). lra.
    + repeat constructor. exists b. split; [reflexivity|lra].
Qed.

(** The clip interval of two non-negative finite temperatures contains
    both. *)
Lemma clip_interval (Th Tc : Q) :
  0 <= Tc -> 0 <= Th ->
  exists l u : Q,
    clip_lo (Fin Th) (Fin Tc) = Fin l /\ clip_hi (Fin Th) (Fin Tc) = Fin u /\
    l <= Tc /\ l <= Th /\ Tc <= u /\ Th <= u.
Proof.
  intros Hc Hh. unfold clip_lo, clip_hi, py_min, py_max.
  destruct (Fin Th <? Fin Tc)%num eqn:E1; destruct (Fin Tc <? Fin Th)%num eqn:E2;
    simpl fmul; eexists _, _; (split; [reflexivity|]); (split; [reflexivity|]);
    try (apply fltb_Fin in E1); try (apply fltb_Fin in E2);
    try (apply fltb_Fin_false in E1); try (apply fltb_Fin_false in E2); lra.
Qed.

Lemma np_maximum_Fin (v l : Q) :
  np_maximum (Fin v) (Fin l) = if (Fin l <? Fin v)%num then Fin v else Fin l.
Proof. reflexivity. Qed.

Lemma np_minimum_Fin (v u : Q) :
  np_minimum (Fin v) (Fin u) = if (Fin v <? Fin u)%num then Fin v else Fin u.
Proof. reflexivity. Qed.

Lemma np_clip_finite (v l u : Q) :
  l <= u ->
  exists w : Q,
    np_clip (Fin v) (Fin l) (Fin u) = Fin w /\ l <= w <= u /\ (l <= v <= u -> w == v).
Proof.
  intros Hlu. unfold np_clip. rewrite np_maximum_Fin.
  destruct (Fin l <? Fin v)%num eqn:E1;
    [apply fltb_Fin in E1|apply fltb_Fin_false in E1]; rewrite np_minimum_Fin.
  - destruct (Fin v <? Fin u)%num eqn:E2;
      [apply fltb_Fin in E2|apply fltb_Fin_false in E2];
      eexists; (split; [reflexivity|]); split; lra.
  - destruct (Fin l <? Fin u)%num eqn:E2;
      [apply fltb_Fin in E2|apply fltb_Fin_false in E2];
      eexists; (split; [reflexivity|]); split; lra.
Qed.

Lemma not_bad_finite (sol : list num) :
  has_nan sol || has_inf sol = false -> Forall (fun v => exists q : Q, v = Fin q) sol.
Proof.
  intros H. apply orb_false_iff in H as [Hnan Hinf].
  induction sol as [|v sol IH]; [constructor|].
  simpl in Hnan, Hinf.
  apply orb_false_iff in Hnan as [Hv1 Hnan]. apply orb_false_iff in Hinf as [Hv2 Hinf].
  constructor; [|auto].
  destruct v; try discriminate. eexists; reflexivity.
Qed.

Lemma clip_map_between (l u : Q) (X : list num) :
  l <= u ->
  Forall (fun v => exists q : Q, v = Fin q) X ->
  Forall (finite_between l u) (map (fun t => np_clip t (Fin l) (Fin u)) X).
Proof.
  intros Hlu HX. apply List.Forall_map.
  eapply List.Forall_impl; [|exact HX].
  intros v (q & ->). destruct (np_clip_finite q l u Hlu) as (w & -> & Hw & _).
  exists w. split; [reflexivity|exact Hw].
Qed.

(** Invariants of the iteration loop: a property that holds of the
    ramp, of the clipped ramp, and of every clipped finite solution holds
    of whatever the loop returns. *)
Lemma iterate_invariant (P : list num -> Prop)
    (oips : option Interpolators) (Th Tc : num) (n_points : nat) (dx J : num) :
  P (linspace Tc Th n_points) ->
  P (map (fun t => np_clip t (clip_lo Th Tc) (clip_hi Th Tc)) (linspace Tc Th n_points)) ->
  (forall (ips : Interpolators) (T sol : list num),
      oips = Some ips -> P T ->
      LinAlg.solve (iteration_system ips Th Tc n_points dx J T).1
                   (iteration_system ips Th Tc n_points dx J T).2 = Some sol ->
      has_nan sol || has_inf sol = false ->
      P (map (fun t => np_clip t (clip_lo Th Tc) (clip_hi Th Tc)) sol)) ->
  forall (remaining iter_count : nat) (T T' : list num) (log : list solver_event),
    P T ->
    iterate oips Th Tc n_points dx J remaining iter_count T = Some (T', log) ->
    P T'.
Proof.
  intros Hramp Hclip Hstep remaining.
  induction remaining as [|remaining IH]; intros iter_count T T' log HT Hrun.
  - injection Hrun as <- _. exact HT.
  - cbn [iterate] in Hrun.
    destruct oips as [ips|]; [|discriminate]. cbn [mbind option_bind] in Hrun.
    destruct (n_points =? 0)%nat; [discriminate|].
    destruct (LinAlg.solve _ _) as [sol|] eqn:Hsolve.
    + set (T_new := map _ _) in Hrun.
      assert (HTnew : P T_new).
      { subst T_new. destruct (has_nan sol || has_inf sol) eqn:Hbad.
        - exact Hclip.
        - eapply Hstep; eauto. }
      destruct (np_max _) as [max_change|]; [|discriminate].
      cbn [mbind option_bind] in Hrun.
      destruct (max_change <? Fin (1 # 100))%num.
      * injection Hrun as <- _. exact HTnew.
      * destruct (iterate (Some ips) Th Tc n_points dx J remaining (S iter_count) T_new)
          as [[T'' log'']|] eqn:Hrec; [|discriminate].
        cbn [mbind option_bind] in Hrun. injection Hrun as <- _.
        eapply IH; eassumption.
    + injection Hrun as <- _. exact Hramp.
Qed.

(** The field returned by [calculate_temperature_distribution] is the
    ramp or a result of the loop started on the ramp. *)
Lemma calculate_temperature_distribution_cases
    (self : ThermoelectricCalculator) (Th Tc : num) (n_points : nat)
    (material_type composition : string) (current_density : num) (max_iter : nat) :
  let r := calculate_temperature_distribution self Th Tc n_points material_type
             composition current_density max_iter in
  r.2.1 = linspace (Fin 0) (Fin 1) n_points /\
  (r.2.2 = linspace Tc Th n_points \/
   exists (oips : option Interpolators) (dx : num) (log : list solver_event),
     iterate oips Th Tc n_points dx (solver_J current_density) max_iter 0
       (linspace Tc Th n_points) = Some (r.2.2, log)).
Proof.
  unfold calculate_temperature_distribution, temperature_distribution_body.
  destruct (pydiv _ _) as [dx|]; cbn [mbind option_bind fst snd]; [|auto].
  destruct (iterate _ _ _ _ _ _ _ _ _) as [[T log]|] eqn:Hrun;
    cbn [mbind option_bind fst snd]; [|auto].
  split; [reflexivity|]. right. eauto.
Qed.

(** C4 (as amended).  For finite, non-negative boundary temperatures
    every value of the returned field lies within [[min(Tc,Th) * 0.95,
    max(Tc,Th) * 1.1]], on every exit path; for [Th = 500] and [Tc =
    300] it lies within [[285, 575]]. *)
Theorem temperature_field_within_clip_range
    (self : ThermoelectricCalculator) (Th Tc : Q) (n_points : nat)
    (material_type composition : string) (current_density : num) (max_iter : nat) :
  0 <= Tc -> 0 <= Th ->
  Forall (within_bounds (clip_lo (Fin Th) (Fin Tc)) (clip_hi (Fin Th) (Fin Tc)))
    (calculate_temperature_distribution self (Fin Th) (Fin Tc) n_points material_type
       composition current_density max_iter).2.2 /\
  (Th == 500 -> Tc == 300 ->
   Forall (within_bounds (Fin 285) (Fin 575))
     (calculate_temperature_distribution self (Fin Th) (Fin Tc) n_points material_type
        composition current_density max_iter).2.2).
Proof.
  intros Hc Hh.
  destruct (clip_interval Th Tc Hc Hh) as (l & u & Hlo & Hhi & Hlc & Hlh & Hcu & Hhu).
  assert (Hall : Forall (finite_between l u)
            (calculate_temperature_distribution self (Fin Th) (Fin Tc) n_points
               material_type composition current_density max_iter).2.2).
  { pose proof (linspace_between Tc Th l u n_points Hlc Hlh Hcu Hhu) as Hramp.
    destruct (calculate_temperature_distribution_cases self (Fin Th) (Fin Tc) n_points
                material_type composition current_density max_iter)
      as [_ [-> | (oips & dx & log & Hrun)]]; [exact Hramp|].
    refine (iterate_invariant (Forall (finite_between l u)) oips (Fin Th) (Fin Tc)
              n_points dx _ Hramp _ _ _ _ _ _ _ Hramp Hrun).
    - rewrite Hlo, Hhi. apply clip_map_between; [lra|].
      eapply List.Forall_impl; [|exact Hramp]. intros v (q & -> & _). eauto.
    - intros ips T sol _ _ _ Hbad. rewrite Hlo, Hhi.
      apply clip_map_between; [lra|]. apply not_bad_finite, Hbad. }
  split.
  - rewrite Hlo, Hhi. eapply List.Forall_impl; [|exact Hall].
    intros v. apply finite_between_within.
  - intros E1 E2. eapply List.Forall_impl; [|exact Hall].
    intros v Hv. apply finite_between_within.
    revert Hv. apply finite_between_weaken.
    + clear -Hlo E1 E2. unfold clip_lo, py_min in Hlo.
      destruct (Fin Th <? Fin Tc)%num eqn:E; [apply fltb_Fin in E; lra|].
      simpl in Hlo. injection Hlo as <-. lra.
    + clear -Hhi E1 E2. unfold clip_hi, py_max in Hhi.
      destruct (Fin Tc <? Fin Th)%num eqn:E; [|apply fltb_Fin_false in E; lra].
      simpl in Hhi. injection Hhi as <-. lra.
Qed.

Lemma temperature_field_within_clip_range_witness :
  Forall (within_bounds (Fin 285) (Fin 575))
    (calculate_temperature_distribution (p_calculator nan_table) (Fin 500) (Fin 300) 10
       "p" "0.02" (Fin (-1)) 20).2.2.
Proof.
  apply (temperature_field_within_clip_range (p_calculator nan_table) 500 300 10
           "p" "0.02" (Fin (-1)) 20); [discriminate | discriminate | reflexivity | reflexivity].
Defined.

(** C4 (as stated) fails for a negative boundary temperature: between
    -10 and -5, when the data files could not be read, the method
    returns the linear ramp, whose first value -10 is below the lower
    bound -9.5. *)
Lemma negative_ramp_outside_clip_range :
  (get (calculate_temperature_distribution empty_calculator (Fin (-5)) (Fin (-10)) 3
          "p" "0.02" (Fin 0) 50).2.2 0 =? Fin (-10))%num = true /\
  (clip_lo (Fin (-5)) (Fin (-10)) =? Fin (-95 # 10))%num = true /\
  (clip_lo (Fin (-5)) (Fin (-10))
   <=? get (calculate_temperature_distribution empty_calculator (Fin (-5)) (Fin (-10)) 3
              "p" "0.02" (Fin 0) 50).2.2 0)%num = false.
Proof. vm_compute. repeat split. Qed.

(* ------------------------------------------------------------------ *)
(** ** Soundness of the linear solve *)

Lemma dot_cons (x y : Q) (a b : list Q) :
  LinAlg.dot (x :: a) (y :: b) == x * y + LinAlg.dot a b.
Proof. simpl. apply Qred_correct. Qed.

Lemma dot_nil_r (a : list Q) : LinAlg.dot a [] = 0.
Proof. destruct a; reflexivity. Qed.

Lemma Qabs_zero_iff (q : Q) : Qabs q == 0 <-> q == 0.
Proof.
  split; intros H.
  - revert H. apply Qabs_case; intros; lra.
  - rewrite H. reflexivity.
Qed.

Lemma select_pivot_spec (rows : list LinAlg.row) (p : LinAlg.row) (rest : list LinAlg.row) :
  LinAlg.select_pivot rows = Some (p, rest) ->
  ~ hd 0 p.1 == 0 /\ Permutation rows (p :: rest).
Proof.
  revert p rest. induction rows as [|r rs IH]; intros p rest H; [discriminate|].
  simpl in H. destruct (LinAlg.select_pivot rs) as [[p' rest']|].
  - destruct (IH p' rest' eq_refl) as [Hp' Hperm].
    destruct (Qle_bool _ _) eqn:Hle.
    + injection H as <- <-. split; [|reflexivity].
      apply Qle_bool_iff in Hle. intros Hr.
      apply Hp', Qabs_zero_iff.
      apply Qabs_zero_iff in Hr. rewrite Hr in Hle.
      pose proof (Qabs_nonneg (hd 0 p'.1)). lra.
    + injection H as <- <-. split; [exact Hp'|].
      rewrite Hperm. apply perm_swap.
  - destruct (Qeq_bool _ _) eqn:Hz; [discriminate|].
    injection H as <- <-. split; [|reflexivity].
    apply Qeq_bool_false_iff, Hz.
Qed.

Lemma dot_eliminate (f : Q) (t ps xs : list Q) :
  length t = length ps ->
  LinAlg.dot (zip_with (fun a b => Qred (a - f * b)) t ps) xs
  == LinAlg.dot t xs - f * LinAlg.dot ps xs.
Proof.
  revert ps xs. induction t as [|a t IH]; intros [|b ps] xs Hlen; try discriminate.
  - simpl. lra.
  - destruct xs as [|x xs].
    + simpl. lra.
    + cbn [zip_with]. rewrite !dot_cons, IH by (simpl in Hlen; lia).
      rewrite Qred_correct. ring.
Qed.

Lemma gauss_sound (n : nat) :
  forall (rows : list LinAlg.row) (xs : list Q),
    LinAlg.gauss n rows = Some xs ->
    Forall (fun r => length r.1 = n) rows ->
    length xs = n /\ Forall (fun r => LinAlg.dot r.1 xs == r.2) rows.
Proof.
  induction n as [|n IH]; intros rows xs Hg Hlen.
  - simpl in Hg. destruct rows; [|discriminate].
    injection Hg as <-. split; [reflexivity|constructor].
  - cbn [LinAlg.gauss] in Hg.
    destruct (LinAlg.select_pivot rows) as [[piv rest]|] eqn:Hsel; [|discriminate].
    destruct (select_pivot_spec _ _ _ Hsel) as [Hp Hperm].
    destruct (LinAlg.gauss n (map (LinAlg.eliminate piv) rest)) as [ys|] eqn:Hrec;
      [|discriminate].
    cbn [mbind option_bind] in Hg. injection Hg as <-.
    rewrite Hperm in Hlen. apply Forall_cons in Hlen as [Hpiv Hrest].
    destruct piv as [[|p ps] pb]; [discriminate|].
    cbn [fst snd hd tl] in *. injection Hpiv as Hps.
    destruct (IH _ _ Hrec) as [Hys Hsol].
    { apply List.Forall_map. eapply List.Forall_impl; [|exact Hrest].
      intros [[|h t] rb] Ht; [discriminate|].
      cbn [fst snd LinAlg.eliminate hd tl]. injection Ht as Ht.
      rewrite length_zip_with. lia. }
    split; [simpl; lia|].
    rewrite Hperm. constructor.
    + cbn [fst snd]. rewrite dot_cons, Qred_correct. field. exact Hp.
    + apply List.Forall_map in Hsol.
      apply List.Forall_forall. intros [[|h t] rb] Hin.
      * rewrite List.Forall_forall in Hrest. specialize (Hrest _ Hin). discriminate.
      * rewrite List.Forall_forall in Hrest, Hsol.
        specialize (Hrest _ Hin). specialize (Hsol _ Hin).
        cbn [fst snd LinAlg.eliminate hd tl] in *. injection Hrest as Ht.
        rewrite dot_eliminate in Hsol by lia.
        rewrite !Qred_correct in Hsol.
        rewrite dot_cons, Qred_correct.
        assert (E : LinAlg.dot t ys == rb - h / p * pb + h / p * LinAlg.dot ps ys) by lra.
        rewrite E. field. exact Hp.
Qed.

(** What a finite result of [LinAlg.solve] is: the exact solution of the
    system, in lowest terms. *)
Lemma solve_finite_sound (A : list (list num)) (b sol : list num) :
  LinAlg.solve A b = Some sol ->
  has_nan sol || has_inf sol = false ->
  b <> [] ->
  length A = length b ->
  Forall (fun r => length r = length b) A ->
  exists (AQ : list (list Q)) (bQ xs : list Q),
    Forall2 (Forall2 (fun x y => LinAlg.to_Q x = Some y)) A AQ /\
    Forall2 (fun x y => LinAlg.to_Q x = Some y) b bQ /\
    sol = map Fin xs /\ length xs = length b /\
    Forall (fun r => LinAlg.dot r.1 xs == r.2) (zip AQ bQ).
Proof.
  intros Hsolve Hbad Hb HlenA Hrows. unfold LinAlg.solve in Hsolve.
  destruct (mapM (mapM LinAlg.to_Q) A) as [AQ|] eqn:HA;
    [destruct (mapM LinAlg.to_Q b) as [bQ|] eqn:HbQ|].
  - apply mapM_Some in HA, HbQ.
    destruct (LinAlg.gauss (length bQ) (zip AQ bQ)) as [xs|] eqn:Hg; [|discriminate].
    injection Hsolve as <-.
    assert (HA' : Forall2 (Forall2 (fun x y => LinAlg.to_Q x = Some y)) A AQ).
    { eapply Forall2_impl; [exact HA|]. intros r rq Hr. apply mapM_Some, Hr. }
    pose proof (Forall2_length _ _ _ HbQ) as HlenbQ.
    destruct (gauss_sound _ _ _ Hg) as [Hxs Hsound].
    { apply Forall_forall. intros [rq bq] Hin. cbn [fst].
      apply list_elem_of_lookup in Hin as [i Hi].
      apply lookup_zip_with_Some in Hi as (rq' & bq' & [= <- <-] & Hrq & _).
      destruct (Forall2_lookup_r _ _ _ _ _ HA' Hrq) as (r & Hr & Hrr).
      rewrite <- (Forall2_length _ _ _ Hrr), <- HlenbQ.
      eapply Forall_lookup_1 in Hrows; eauto. }
    exists AQ, bQ, xs. repeat split; auto. lia.
  - injection Hsolve as <-. exfalso.
    destruct b; [congruence|]. discriminate.
  - injection Hsolve as <-. exfalso.
    destruct b; [congruence|]. discriminate.
Qed.

(* ------------------------------------------------------------------ *)
(** ** Shape of the assembled system *)

Lemma mat_set_rows (n : nat) (A : list (list num)) (i j : nat) (v : num) :
  Forall (fun r => length r = n) A ->
  Forall (fun r => length r = n) (mat_set A i j v).
Proof.
  intros H. apply Forall_lookup. intros k r Hk. unfold mat_set in Hk.
  destruct (decide (i = k)) as [->|Hne].
  - rewrite list_lookup_alter_eq in Hk.
    destruct (A !! k) as [r'|] eqn:Hr'; [|discriminate].
    injection Hk as <-. rewrite length_insert.
    eapply Forall_lookup_1 in H; eauto.
  - rewrite list_lookup_alter_ne in Hk by assumption.
    eapply Forall_lookup_1 in H; eauto.
Qed.

Lemma mat_set_length (A : list (list num)) (i j : nat) (v : num) :
  length (mat_set A i j v) = length A.
Proof. apply length_alter. Qed.

Lemma foldl_preserves {A B : Type} (P : A -> Prop) (R : B -> Prop) (f : A -> B -> A)
    (l : list B) (a : A) :
  (forall a b, P a -> R b -> P (f a b)) -> Forall R l -> P a -> P (foldl f a l).
Proof.
  intros Hstep Hl. revert a. induction Hl as [|b l Hb _ IH]; intros a Ha; [exact Ha|].
  simpl. apply IH, Hstep; assumption.
Qed.

Lemma interior_row_shape (c : Coeffs) (dx : num) (n i : nat)
    (Ab : list (list num) * list num) :
  system_shape n Ab -> system_shape n (interior_row c dx Ab i).
Proof.
  intros (HA & Hrows & Hb). unfold system_shape, interior_row. cbn [fst snd].
  rewrite !mat_set_length, length_insert.
  repeat split; try assumption. now repeat apply mat_set_rows.
Qed.

Lemma assemble_shape (c : Coeffs) (dx Th Tc : num) (n : nat) :
  system_shape n (assemble c dx Th Tc n).
Proof.
  unfold assemble.
  apply (foldl_preserves (system_shape n) (fun _ => True)).
  - intros Ab i HAb _. now apply interior_row_shape.
  - apply Forall_forall. auto.
  - unfold system_shape. cbn [fst snd].
    rewrite !mat_set_length, !length_insert, !length_replicate.
    repeat split.
    repeat apply mat_set_rows. apply Forall_replicate. apply length_replicate.
Qed.

(* ------------------------------------------------------------------ *)
(** ** Shape of the result *)

Lemma length_linspace (a b : num) (n : nat) : length (linspace a b n) = n.
Proof.
  destruct n as [|[|k]]; try reflexivity.
  unfold linspace. rewrite length_app, length_map, length_seq. simpl. lia.
Qed.

Lemma lookup_map {A B : Type} (f : A -> B) (l : list A) (i : nat) :
  map f l !! i = f <$> l !! i.
Proof. apply (list_lookup_fmap f l i). Qed.

Lemma solve_length (A : list (list num)) (b sol : list num) :
  LinAlg.solve A b = Some sol ->
  has_nan sol || has_inf sol = false ->
  b <> [] -> length A = length b -> Forall (fun r => length r = length b) A ->
  length sol = length b.
Proof.
  intros Hs Hbad Hb HA Hrows.
  destruct (solve_finite_sound A b sol Hs Hbad Hb HA Hrows)
    as (AQ & bQ & xs & _ & _ & -> & Hlen & _).
  now rewrite length_map.
Qed.

(** Shape of the result.  On every exit path (converged, iteration cap,
    singular system, non-finite solution, exception) and for every
    input, [calculate_temperature_distribution] returns the positions
    [linspace(0, 1, n_points)] and a temperature array of the same length
    [n_points]. *)
Theorem temperature_distribution_shape
    (self : ThermoelectricCalculator) (Th Tc : num) (n_points : nat)
    (material_type composition : string) (current_density : num) (max_iter : nat) :
  let r := calculate_temperature_distribution self Th Tc n_points material_type
             composition current_density max_iter in
  r.2.1 = linspace (Fin 0) (Fin 1) n_points /\
  length r.2.1 = n_points /\ length r.2.2 = n_points.
Proof.
  intros r.
  destruct (calculate_temperature_distribution_cases self Th Tc n_points
              material_type composition current_density max_iter) as [Hx HT].
  fold r in Hx, HT. split; [exact Hx|]. split; [rewrite Hx; apply length_linspace|].
  destruct HT as [-> | (oips & dx & log & Hrun)]; [apply length_linspace|].
  refine (iterate_invariant (fun T => length T = n_points) oips Th Tc n_points dx _
            _ _ _ _ _ _ _ _ (length_linspace Tc Th n_points) Hrun).
  - apply length_linspace.
  - rewrite length_map. apply length_linspace.
  - intros ips T sol _ _ Hsolve Hbad. rewrite length_map.
    destruct (assemble_shape
                (coefficients (solver_J current_density)
                   (node_values (seebeck_at ips) n_points T)
                   (node_values (resistivity_at ips) n_points T)
                   (node_values (thermal_cond_at ips) n_points T)) dx Th Tc n_points)
      as (HA & Hrows & Hb).
    fold (iteration_system ips Th Tc n_points dx (solver_J current_density) T)
      in HA, Hrows, Hb.
    destruct (decide (n_points = 0%nat)) as [->|Hn0].
    + apply nil_length_inv in Hb. apply nil_length_inv in HA.
      rewrite HA, Hb in Hsolve. cbn in Hsolve. now injection Hsolve as <-.
    + rewrite (solve_length _ _ _ Hsolve Hbad); [exact Hb| |congruence|now rewrite Hb].
      intros Eb. rewrite Eb in Hb. simpl in Hb. lia.
Qed.

(** C3 (as stated) fails for a negative boundary temperature: between
    -10 and -5 on three nodes with no current (S = 0, ρ = 1, κ = 1) the
    solve returns [-10, -7.5, -5], the clip to [[-9.5, -5.5]] moves both
    ends, and the method returns [T[0] = -9.5] and [T[2] = -5.5]. *)
Lemma negative_boundary_not_pinned :
  (get (calculate_temperature_distribution (p_calculator (const_table 0 1 1))
          (Fin (-5)) (Fin (-10)) 3 "p" "0.02" (Fin 0) 50).2.2 0 =? Fin (-10))%num = false /\
  (get (calculate_temperature_distribution (p_calculator (const_table 0 1 1))
          (Fin (-5)) (Fin (-10)) 3 "p" "0.02" (Fin 0) 50).2.2 0 =? Fin (-95 # 10))%num = true /\
  (get (calculate_temperature_distribution (p_calculator (const_table 0 1 1))
          (Fin (-5)) (Fin (-10)) 3 "p" "0.02" (Fin 0) 50).2.2 2 =? Fin (-55 # 10))%num = true.
Proof. vm_compute. repeat split. Qed.

(* ------------------------------------------------------------------ *)
(** ** Sorting the samples *)

Lemma key_leb_total (x y : num) : key_leb x y = true \/ key_leb y x = true.
Proof.
  destruct x as [a| | |], y as [b| | |]; simpl; auto.
  destruct (Qlt_le_dec b a) as [H|H].
  - right. apply Qle_bool_iff. lra.
  - left. apply Qle_bool_iff. exact H.
Qed.

Lemma key_leb_trans (x y z : num) :
  key_leb x y = true -> key_leb y z = true -> key_leb x z = true.
Proof.
  destruct x as [a| | |], y as [b| | |], z as [c| | |]; simpl; try congruence.
  rewrite !Qle_bool_iff. apply Qle_trans.
Qed.

Lemma insert_sorted_perm (p : num * nat) (l : list (num * nat)) :
  Permutation (insert_sorted p l) (p :: l).
Proof.
  induction l as [|q l IH]; simpl; [reflexivity|].
  destruct (key_leb p.1 q.1); [reflexivity|].
  rewrite IH. apply perm_swap.
Qed.

Lemma sort_keys_perm (l : list (num * nat)) : Permutation (sort_keys l) l.
Proof.
  induction l as [|p l IH]; simpl; [reflexivity|].
  rewrite insert_sorted_perm. now constructor.
Qed.

Lemma insert_sorted_sorted (p : num * nat) (l : list (num * nat)) :
  StronglySorted (fun a b => key_leb a.1 b.1 = true) l ->
  StronglySorted (fun a b => key_leb a.1 b.1 = true) (insert_sorted p l).
Proof.
  induction 1 as [|q l Hs IH Hq]; simpl.
  - repeat constructor.
  - destruct (key_leb p.1 q.1) eqn:Hpq.
    + constructor; [constructor; assumption|].
      constructor; [exact Hpq|].
      eapply List.Forall_impl; [|exact Hq].
      intros r Hr. eapply key_leb_trans; eassumption.
    + constructor; [exact IH|].
      rewrite insert_sorted_perm. constructor; [|exact Hq].
      destruct (key_leb_total p.1 q.1); congruence.
Qed.

Lemma sort_keys_sorted (l : list (num * nat)) :
  StronglySorted (fun a b => key_leb a.1 b.1 = true) (sort_keys l).
Proof.
  induction l as [|p l IH]; simpl; [constructor|].
  now apply insert_sorted_sorted.
Qed.

(** The pairs of [combine a (seq 0 (length a))] are the entries of [a]
    with their indices. *)
Lemma elem_of_indexed (a : list num) (k : num) (i : nat) :
  In (k, i) (combine a (seq 0 (length a))) <-> a !! i = Some k.
Proof.
  assert (G : forall (l : list num) (s : nat),
             In (k, i) (combine l (seq s (length l))) <->
             (s <= i)%nat /\ l !! (i - s)%nat = Some k).
  { induction l as [|x l IH]; intros s; simpl.
    - split; [tauto|]. intros [_ H]. discriminate.
    - rewrite IH. split.
      + intros [[= -> ->]|[Hs Hl]].
        * split; [lia|]. now rewrite Nat.sub_diag.
        * split; [lia|]. replace (i - s)%nat with (S (i - S s)) by lia. exact Hl.
      + intros [Hs Hl]. destruct (decide (i = s)) as [->|Hne].
        * left. rewrite Nat.sub_diag in Hl. simpl in Hl. congruence.
        * right. split; [lia|].
          replace (i - s)%nat with (S (i - S s)) in Hl by lia. exact Hl. }
  rewrite G, Nat.sub_0_r. split; [tauto|]. split; [lia|assumption].
Qed.

Lemma snd_indexed (a : list num) : map snd (combine a (seq 0 (length a))) = seq 0 (length a).
Proof.
  generalize 0%nat. induction a as [|x a IH]; intros s; simpl; [reflexivity|].
  now rewrite IH.
Qed.

Lemma sorted_samples_lookup (md : MaterialData) (k : num) (i : nat) :
  In (k, i) (sorted_samples md) <-> md_temp md !! i = Some k.
Proof.
  unfold sorted_samples. rewrite <- elem_of_indexed.
  split; apply Permutation_in; [|symmetry]; apply sort_keys_perm.
Qed.

Lemma sorted_samples_length (md : MaterialData) :
  length (sorted_samples md) = length (md_temp md).
Proof.
  unfold sorted_samples. rewrite (Permutation_length (sort_keys_perm _)).
  rewrite length_combine, length_seq. lia.
Qed.

Lemma sorted_samples_NoDup (md : MaterialData) : NoDup (map snd (sorted_samples md)).
Proof.
  unfold sorted_samples.
  rewrite (Permutation_map snd (sort_keys_perm _)), snd_indexed.
  apply NoDup_seq.
Qed.

(** Case analysis on extended numbers: special values by computation,
    finite ones through the order of [Q]. *)
Ltac num_order :=
  repeat match goal with
         | x : num |- _ => destruct x
         end;
  cbn [key_leb isfinite isnan isinf] in *;
  try discriminate;
  try match goal with
      | H : _ = _ |- _ => solve [simpl in H; discriminate H]
      end;
  try solve [simpl; reflexivity];
  repeat match goal with
         | H : (Fin _ <? Fin _)%num = true |- _ => apply fltb_Fin in H
         | H : (Fin _ <? Fin _)%num = false |- _ => apply fltb_Fin_false in H
         | H : (Fin _ =? Fin _)%num = true |- _ => apply feqb_Fin in H
         | H : (Fin _ =? Fin _)%num = false |- _ => apply feqb_Fin_false in H
         | H : (Fin _ <=? Fin _)%num = true |- _ => apply fleb_Fin in H
         | H : Qle_bool _ _ = true |- _ => apply Qle_bool_iff in H
         end;
  try match goal with
      | |- (Fin _ <? Fin _)%num = true => apply fltb_Fin
      | |- (Fin _ <? Fin _)%num = false => apply fltb_Fin_false
      | |- (Fin _ =? Fin _)%num = true => apply feqb_Fin
      | |- (Fin _ =? Fin _)%num = false => apply feqb_Fin_false
      | |- (Fin _ <=? Fin _)%num = true => apply fleb_Fin
      end;
  try lra.

Lemma key_leb_strict (x y : num) :
  isfinite x = true -> isfinite y = true ->
  key_leb x y = true -> (x =? y)%num = false -> (x <? y)%num = true.
Proof. intros Hx Hy Hle Hne. num_order. Qed.

Lemma feqb_fltb_r (x t y : num) :
  (x =? t)%num = true -> (x <? y)%num = true -> (t <? y)%num = true.
Proof. intros H1 H2. num_order. Qed.

Lemma feqb_fltb_l (x t y : num) :
  (x =? t)%num = true -> (y <? x)%num = true -> (t <? y)%num = false.
Proof. intros H1 H2. num_order. Qed.

Lemma feqb_not_fltb (x t : num) : (x =? t)%num = true -> (t <? x)%num = false.
Proof. intros H. num_order. Qed.

Lemma feqb_not_fltb' (x t : num) : (x =? t)%num = true -> (x <? t)%num = false.
Proof. intros H. num_order. Qed.

Lemma fleb_cases (t x : num) :
  (t <=? x)%num = true -> (t <? x)%num = true \/ (t =? x)%num = true.
Proof. unfold fleb. intros H. apply orb_true_iff in H. exact H. Qed.

Lemma fleb_not_nan_l (t x : num) : (t <=? x)%num = true -> isnan t = false.
Proof. intros H. destruct t; try reflexivity. destruct x; discriminate. Qed.

Lemma fleb_not_nan_r (t x : num) : (x <=? t)%num = true -> isnan t = false.
Proof. intros H. destruct t; try reflexivity. destruct x; discriminate. Qed.

Lemma fltb_fleb_absurd (x y : num) :
  (x <? y)%num = true -> (y <=? x)%num = true -> False.
Proof. intros H1 H2. apply fltb_not_fleb in H1. congruence. Qed.

Lemma feqb_sym (x y : num) : (x =? y)%num = true -> (y =? x)%num = true.
Proof. intros H. num_order. Qed.

Lemma fltb_trans (x y z : num) :
  (x <? y)%num = true -> (y <? z)%num = true -> (x <? z)%num = true.
Proof. intros H1 H2. num_order. Qed.

Lemma fltb_fleb_trans (x y z : num) :
  (x <? y)%num = true -> (y <=? z)%num = true -> (x <? z)%num = true.
Proof.
  intros H1 H2. apply fleb_cases in H2 as [H2|H2].
  - eapply fltb_trans; eassumption.
  - clear -H1 H2. num_order.
Qed.

(** In a valid table the sorted temperatures are strictly increasing. *)
Lemma sorted_samples_strict (md : MaterialData) :
  valid_table md ->
  StronglySorted (fun a b => (a.1 <? b.1)%num = true) (sorted_samples md).
Proof.
  intros (_ & _ & _ & _ & Hfin & Hdistinct).
  assert (Hin : forall p, In p (sorted_samples md) -> md_temp md !! p.2 = Some p.1).
  { intros [k i] Hp. now apply sorted_samples_lookup. }
  pose proof (sorted_samples_NoDup md) as Hnd.
  pose proof (sort_keys_sorted (combine (md_temp md) (seq 0 (length (md_temp md))))) as Hs.
  fold (sorted_samples md) in Hs.
  induction Hs as [|p l Hs IH Hp]; [constructor|].
  simpl in Hnd. apply NoDup_cons in Hnd as [Hnotin Hnd].
  constructor.
  - apply IH; [|exact Hnd]. intros q Hq. apply Hin. now right.
  - apply List.Forall_forall. intros q Hq.
    rewrite List.Forall_forall in Hp. specialize (Hp q Hq).
    pose proof (Hin p (or_introl eq_refl)) as Hlp.
    pose proof (Hin q (or_intror Hq)) as Hlq.
    apply key_leb_strict; [| |exact Hp|].
    + exact (Forall_lookup_1 _ _ _ _ Hfin Hlp).
    + exact (Forall_lookup_1 _ _ _ _ Hfin Hlq).
    + eapply Hdistinct; eauto. intros E. apply Hnotin.
      rewrite E. apply list_elem_of_In, in_map, Hq.
Qed.

(* ------------------------------------------------------------------ *)
(** ** Lookups at and beyond the ends of a table *)

Lemma last_cons_cons {A : Type} (x y : A) (l : list A) (d : A) :
  List.last (x :: y :: l) d = List.last (y :: l) d.
Proof. reflexivity. Qed.

Lemma last_map_nonempty {A B : Type} (f : A -> B) (l : list A) (d : A) (e : B) :
  l <> [] -> List.last (map f l) e = f (List.last l d).
Proof.
  induction l as [|x [|y l] IH]; intros H; [congruence|reflexivity|].
  cbn [map]. rewrite !last_cons_cons. apply IH. discriminate.
Qed.

(** In a strictly ascending list every entry before the last one is
    below it. *)
Lemma strict_last (p : num * nat) (l : list (num * nat)) (d : num * nat) :
  StronglySorted (fun a b => (a.1 <? b.1)%num = true) (p :: l) ->
  l <> [] ->
  (p.1 <? (List.last (p :: l) d).1)%num = true /\ In (List.last (p :: l) d) l.
Proof.
  intros Hs Hl. apply StronglySorted_inv in Hs as [_ Hp].
  assert (Hin : In (List.last (p :: l) d) l).
  { destruct l as [|q l]; [congruence|]. rewrite last_cons_cons.
    clear. revert q. induction l as [|r l IH]; intros q; [now left|].
    rewrite last_cons_cons. right. apply IH. }
  split; [|exact Hin]. rewrite List.Forall_forall in Hp. apply Hp, Hin.
Qed.

Lemma np_interp_first (g : num * nat -> num) (p0 p1 : num * nat)
    (rest : list (num * nat)) (t : num) :
  (p0.1 <? p1.1)%num = true -> (p0.1 =? t)%num = true ->
  np_interp (map fst (p0 :: p1 :: rest)) (map g (p0 :: p1 :: rest)) t = g p0.
Proof.
  intros Hlt Heq. cbn [map np_interp].
  now rewrite (feqb_fltb_r _ _ _ Heq Hlt), Heq.
Qed.

Lemma np_interp_last (g : num * nat -> num) (sp : list (num * nat)) (t : num)
    (d : num * nat) :
  StronglySorted (fun a b => (a.1 <? b.1)%num = true) sp ->
  sp <> [] ->
  ((List.last sp d).1 =? t)%num = true ->
  np_interp (map fst sp) (map g sp) t = g (List.last sp d).
Proof.
  induction sp as [|p0 [|p1 rest] IH]; intros Hs Hne Heq; [congruence|reflexivity|].
  assert (Hfalse : (t <? p1.1)%num = false).
  { rewrite last_cons_cons in Heq.
    destruct rest as [|p2 rest'].
    - simpl in Heq. now apply feqb_not_fltb.
    - destruct (strict_last p1 (p2 :: rest') d) as [Hlt _];
        [eapply StronglySorted_inv, Hs | discriminate |].
      eapply feqb_fltb_l; eassumption. }
  change (np_interp (map fst (p0 :: p1 :: rest)) (map g (p0 :: p1 :: rest)) t)
    with (if (t <? p1.1)%num
          then if (p0.1 =? t)%num then g p0
               else ((g p1 - g p0) / (p1.1 - p0.1) * (t - p0.1) + g p0)%num
          else np_interp (map fst (p1 :: rest)) (map g (p1 :: rest)) t).
  rewrite Hfalse, last_cons_cons. apply IH.
  - eapply StronglySorted_inv, Hs.
  - discriminate.
  - now rewrite last_cons_cons in Heq.
Qed.

Lemma feqb_fltb_gt (x t y : num) :
  (x =? t)%num = true -> (x <? y)%num = true -> (y <? t)%num = false.
Proof. intros H1 H2. num_order. Qed.

Lemma fltb_fleb_gt (x y t : num) :
  (x <? y)%num = true -> (y <=? t)%num = true -> (t <? x)%num = false.
Proof.
  intros H1 H2. apply fleb_cases in H2 as [H2|H2]; clear -H1 H2; num_order.
Qed.

Lemma sorted_samples_two (md : MaterialData) :
  valid_table md ->
  exists (p0 p1 : num * nat) (rest : list (num * nat)),
    sorted_samples md = p0 :: p1 :: rest.
Proof.
  intros (Hn & _). pose proof (sorted_samples_length md) as Hlen.
  destruct (sorted_samples md) as [|p0 [|p1 rest]]; simpl in Hlen; try lia.
  eauto.
Qed.

(** At or below the lowest sampled temperature, the lookup returns the
    value sampled there. *)
Lemma column_interpolator_low (md : MaterialData) (col : list num)
    (i : nat) (ti t : num) :
  valid_table md ->
  md_temp md !! i = Some ti ->
  Forall (fun x => (ti <=? x)%num = true) (md_temp md) ->
  (t <=? ti)%num = true ->
  interp1d_call (column_interpolator md col) t = get col i.
Proof.
  intros Hvalid Hi Hmin Ht.
  pose proof (sorted_samples_strict md Hvalid) as Hs.
  destruct (sorted_samples_two md Hvalid) as (p0 & p1 & rest & Hsp).
  assert (Hp0 : p0 = (ti, i)).
  { assert (Hin : In (ti, i) (sorted_samples md)) by now apply sorted_samples_lookup.
    rewrite Hsp in Hin, Hs. destruct Hin as [E|Hin]; [exact E|]. exfalso.
    apply StronglySorted_inv in Hs as [_ Hs]. rewrite List.Forall_forall in Hs.
    specialize (Hs _ Hin). cbn [fst] in Hs.
    assert (Hl : md_temp md !! p0.2 = Some p0.1).
    { apply sorted_samples_lookup. rewrite Hsp. destruct p0. now left. }
    pose proof (Forall_lookup_1 _ _ _ _ Hmin Hl) as Hle.
    eapply fltb_fleb_absurd; eassumption. }
  destruct (strict_last p0 (p1 :: rest) (NaN, 0%nat)) as [Hlast _];
    [now rewrite <- Hsp | discriminate |].
  unfold interp1d_call, column_interpolator. cbn [ip_x ip_y ip_below ip_above].
  rewrite (fleb_not_nan_l _ _ Ht).
  rewrite (last_map_nonempty fst (sorted_samples md) (NaN, 0%nat))
    by (rewrite Hsp; discriminate).
  rewrite Hsp. cbn [map hd].
  replace p0.1 with ti by now rewrite Hp0.
  replace p0.2 with i by now rewrite Hp0.
  apply fleb_cases in Ht as [Hlt|Heq]; [now rewrite Hlt|].
  rewrite (feqb_not_fltb' _ _ Heq).
  assert (Heq' : (p0.1 =? t)%num = true) by (rewrite Hp0; now apply feqb_sym).
  rewrite (feqb_fltb_gt _ _ _ Heq' Hlast).
  replace ti with p0.1 by now rewrite Hp0.
  replace (get col i) with (get col p0.2) by now rewrite Hp0.
  apply (np_interp_first (fun p => get col p.2) p0 p1 rest t); [|exact Heq'].
  rewrite Hsp in Hs. apply StronglySorted_inv in Hs as [_ Hs].
  now apply Forall_cons in Hs as [Hs _].
Qed.

(** At or above the highest sampled temperature, the lookup returns the
    value sampled there. *)
Lemma column_interpolator_high (md : MaterialData) (col : list num)
    (i : nat) (ti t : num) :
  valid_table md ->
  md_temp md !! i = Some ti ->
  Forall (fun x => (x <=? ti)%num = true) (md_temp md) ->
  (ti <=? t)%num = true ->
  interp1d_call (column_interpolator md col) t = get col i.
Proof.
  intros Hvalid Hi Hmax Ht.
  pose proof (sorted_samples_strict md Hvalid) as Hs.
  destruct (sorted_samples_two md Hvalid) as (p0 & p1 & rest & Hsp).
  set (d := (NaN, 0%nat)).
  destruct (strict_last p0 (p1 :: rest) d) as [Hfirst Hlin];
    [now rewrite <- Hsp | discriminate |].
  assert (Hpl : List.last (sorted_samples md) d = (ti, i)).
  { assert (Hin : In (ti, i) (sorted_samples md)) by now apply sorted_samples_lookup.
    assert (Hl : md_temp md !! (List.last (sorted_samples md) d).2
                 = Some (List.last (sorted_samples md) d).1).
    { apply sorted_samples_lookup. rewrite <- surjective_pairing, Hsp.
      right. exact Hlin. }
    pose proof (Forall_lookup_1 _ _ _ _ Hmax Hl) as Hle.
    destruct (exists_last (l := sorted_samples md)) as (front & pl & Hsplit);
      [rewrite Hsp; discriminate|].
    rewrite Hsplit in Hin, Hs, Hle |- *. rewrite last_last in Hle |- *.
    apply in_app_or in Hin as [Hin|[E|[]]]; [exfalso|exact E].
    clear -Hs Hin Hle. induction front as [|q front IH]; [destruct Hin|].
    cbn [app] in Hs. apply StronglySorted_inv in Hs as [Hs Hq].
    destruct Hin as [->|Hin]; [|now apply IH].
    rewrite List.Forall_forall in Hq.
    specialize (Hq pl ltac:(apply in_or_app; right; now left)). cbn [fst] in Hq.
    eapply fltb_fleb_absurd; eassumption. }
  unfold interp1d_call, column_interpolator. cbn [ip_x ip_y ip_below ip_above].
  rewrite (fleb_not_nan_r _ _ Ht).
  fold d. rewrite (last_map_nonempty fst (sorted_samples md) d) by (rewrite Hsp; discriminate).
  rewrite Hpl. cbn [fst snd].
  rewrite Hsp in Hpl |- *. cbn [map hd]. rewrite Hpl in Hfirst. cbn [fst] in Hfirst.
  rewrite (fltb_fleb_gt _ _ _ Hfirst Ht).
  apply fleb_cases in Ht as [Hlt|Heq]; [now rewrite Hlt|].
  rewrite (feqb_not_fltb' _ _ Heq).
  transitivity (get col (List.last (p0 :: p1 :: rest) d).2); [|now rewrite Hpl].
  apply (np_interp_last (fun p => get col p.2) (p0 :: p1 :: rest) t d).
  - now rewrite <- Hsp.
  - discriminate.
  - now rewrite Hpl.
Qed.

(* ------------------------------------------------------------------ *)
(** ** [create_interpolators] on a valid table *)

Lemma fancy_index_map (col : list num) (sp : list (num * nat)) :
  Forall (fun p => (p.2 < length col)%nat) sp ->
  fancy_index col (map snd sp) = Some (map (fun p => get col p.2) sp).
Proof.
  intros H. apply mapM_Some_2.
  induction H as [|p sp Hp _ IH]; [constructor|].
  cbn [map]. constructor; [|exact IH].
  destruct (nth_lookup_or_length col p.2 NaN) as [E|E]; [exact E|lia].
Qed.

Lemma sorted_samples_in_range (md : MaterialData) (col : list num) :
  length col = length (md_temp md) ->
  Forall (fun p => (p.2 < length col)%nat) (sorted_samples md).
Proof.
  intros Hlen. apply List.Forall_forall. intros [k i] Hin. cbn [snd].
  apply sorted_samples_lookup in Hin. rewrite Hlen.
  eapply lookup_lt_Some, Hin.
Qed.

Lemma sorted_samples_temps (md : MaterialData) :
  map (fun p => get (md_temp md) p.2) (sorted_samples md) = map fst (sorted_samples md).
Proof.
  apply map_ext_in. intros [k i] Hin. cbn [fst snd].
  apply sorted_samples_lookup in Hin. unfold get. now apply nth_lookup_Some.
Qed.

Lemma interp1d_same_length (x y : list num) (below above : num) :
  length x = length y -> x <> [] ->
  interp1d x y below above
  = Some {| ip_x := x; ip_y := y; ip_below := below; ip_above := above |}.
Proof.
  intros Hlen Hx. unfold interp1d.
  rewrite Hlen, Nat.eqb_refl. cbn [negb].
  destruct y; [|reflexivity].
  destruct x; [now destruct Hx|discriminate Hlen].
Qed.

Lemma build_interpolators_valid (md : MaterialData) :
  valid_table md ->
  build_interpolators md
  = Some {| i_seebeck := column_interpolator md (md_seebeck md);
            i_resistivity := column_interpolator md (md_resistivity md);
            i_thermal_cond := column_interpolator md (md_thermal_cond md) |}.
Proof.
  intros Hvalid.
  destruct (sorted_samples_two md Hvalid) as (p0 & p1 & rest & Hsp).
  destruct Hvalid as (_ & Hs & Hr & Hk & _).
  unfold build_interpolators.
  change (argsort (md_temp md)) with (map snd (sorted_samples md)).
  rewrite !fancy_index_map by now apply sorted_samples_in_range.
  cbn [mbind option_bind]. rewrite sorted_samples_temps.
  unfold column_interpolator.
  rewrite !(last_map_nonempty _ (sorted_samples md) (NaN, 0%nat))
    by (rewrite Hsp; discriminate).
  rewrite Hsp. cbn [map lookup list_lookup mbind option_bind hd].
  rewrite !interp1d_same_length
    by (first [discriminate | cbn [length]; rewrite !length_map; reflexivity]).
  reflexivity.
Qed.

(* ------------------------------------------------------------------ *)
(** ** Lookups at sample points and between them *)

Lemma fleb_fltb_false (x y : num) :
  isnan x = false -> isnan y = false -> (x <? y)%num = false -> (y <=? x)%num = true.
Proof.
  intros Hx Hy H. destruct x, y; try discriminate; try reflexivity.
  apply fltb_Fin_false in H. apply fleb_Fin. exact H.
Qed.


(** Linear interpolation between two samples stays between their
    values. *)
Lemma segment_between (x0 x1 y0 y1 q lo hi : Q) :
  x0 <= q -> q < x1 -> lo <= y0 <= hi -> lo <= y1 <= hi ->
  finite_between lo hi
    ((Fin y1 - Fin y0) / (Fin x1 - Fin x0) * (Fin q - Fin x0) + Fin y0)%num.
Proof.
  intros Hq0 Hq1 Hy0 Hy1. simpl fsub.
  rewrite fdiv_Fin by lra. simpl.
  eexists; split; [reflexivity|].
  assert (Hd : (y1 + - y0) / (x1 + - x0) * (x1 + - x0) == y1 - y0) by (field; lra).
  set (s := (y1 + - y0) / (x1 + - x0)) in *.
  destruct (Qlt_le_dec y1 y0) as [H|H].
  - assert (s <= 0) by (apply Qle_shift_div_r; lra). nra.
  - assert (0 <= s) by (apply Qle_shift_div_l; lra). nra.
Qed.

Lemma np_interp_between (g : num * nat -> num) (lo hi : Q)
    (sp : list (num * nat)) (q : Q) :
  StronglySorted (fun a b => (a.1 <? b.1)%num = true) sp ->
  Forall (fun p => isfinite p.1 = true /\ finite_between lo hi (g p)) sp ->
  sp <> [] ->
  (hd NaN (map fst sp) <=? Fin q)%num = true ->
  finite_between lo hi (np_interp (map fst sp) (map g sp) (Fin q)).
Proof.
  induction sp as [|p0 [|p1 rest] IH]; intros Hs Hfin Hne Hq; [congruence| |].
  - apply Forall_cons in Hfin as [[_ H] _]. exact H.
  - change (np_interp (map fst (p0 :: p1 :: rest)) (map g (p0 :: p1 :: rest)) (Fin q))
      with (if (Fin q <? p1.1)%num
            then if (p0.1 =? Fin q)%num then g p0
                 else ((g p1 - g p0) / (p1.1 - p0.1) * (Fin q - p0.1) + g p0)%num
            else np_interp (map fst (p1 :: rest)) (map g (p1 :: rest)) (Fin q)).
    pose proof Hfin as Hfin0.
    apply Forall_cons in Hfin as [[Hf0 Hg0] Hfin].
    pose proof Hfin as Hfin1. apply Forall_cons in Hfin1 as [[Hf1 Hg1] _].
    destruct (Fin q <? p1.1)%num eqn:Hlt.
    + destruct (p0.1 =? Fin q)%num eqn:Heq; [exact Hg0|].
      cbn [map hd] in Hq.
      destruct Hg0 as (y0 & -> & Hy0). destruct Hg1 as (y1 & -> & Hy1).
      destruct (p0.1) as [x0| | |]; try discriminate.
      destruct (p1.1) as [x1| | |]; try discriminate.
      apply fleb_Fin in Hq. apply fltb_Fin in Hlt.
      now apply segment_between.
    + apply IH; [eapply StronglySorted_inv, Hs|exact Hfin|discriminate|].
      cbn [map hd]. apply fleb_fltb_false; [reflexivity| |exact Hlt].
      destruct (p1.1); try discriminate; reflexivity.
Qed.


Lemma sorted_samples_finite (md : MaterialData) (p : num * nat) :
  valid_table md -> In p (sorted_samples md) -> isfinite p.1 = true.
Proof.
  intros (_ & _ & _ & _ & Hfin & _) Hin. destruct p as [k i].
  apply sorted_samples_lookup in Hin. exact (Forall_lookup_1 _ _ _ _ Hfin Hin).
Qed.


Lemma get_between (lo hi : Q) (col : list num) (i : nat) :
  Forall (finite_between lo hi) col -> (i < length col)%nat ->
  finite_between lo hi (get col i).
Proof.
  intros Hcol Hi. unfold get.
  destruct (nth_lookup_or_length col i NaN) as [E|E]; [|lia].
  exact (Forall_lookup_1 _ _ _ _ Hcol E).
Qed.

(** A lookup never leaves the range of the sampled values. *)
Lemma column_interpolator_between (md : MaterialData) (col : list num)
    (lo hi : Q) (t : num) :
  valid_table md ->
  length col = length (md_temp md) ->
  Forall (finite_between lo hi) col ->
  isnan t = false ->
  finite_between lo hi (interp1d_call (column_interpolator md col) t).
Proof.
  intros Hvalid Hlen Hcol Hnan.
  pose proof (sorted_samples_strict md Hvalid) as Hs.
  destruct (sorted_samples_two md Hvalid) as (p0 & p1 & rest & Hsp).
  pose proof (sorted_samples_in_range md col Hlen) as Hrange.
  set (d := (NaN, 0%nat)).
  assert (Hg : Forall (fun p => isfinite p.1 = true /\
                          finite_between lo hi (get col p.2)) (sorted_samples md)).
  { apply List.Forall_forall. intros p Hp. split.
    - now apply (sorted_samples_finite md).
    - apply get_between; [exact Hcol|].
      rewrite List.Forall_forall in Hrange. now apply Hrange. }
  assert (Hhd : In (hd d (sorted_samples md)) (sorted_samples md))
    by (rewrite Hsp; now left).
  assert (Hlast : In (List.last (sorted_samples md) d) (sorted_samples md)).
  { rewrite Hsp. destruct (strict_last p0 (p1 :: rest) d) as [_ H];
      [now rewrite <- Hsp|discriminate|]. now right. }
  unfold interp1d_call, column_interpolator. cbn [ip_x ip_y ip_below ip_above].
  fold d. rewrite Hnan.
  rewrite (last_map_nonempty fst (sorted_samples md) d) by (rewrite Hsp; discriminate).
  rewrite List.Forall_forall in Hg.
  destruct (t <? hd NaN (map fst (sorted_samples md)))%num eqn:H1;
    [apply (Hg _ Hhd)|].
  destruct ((List.last (sorted_samples md) d).1 <? t)%num eqn:H2;
    [apply (Hg _ Hlast)|].
  destruct (Hg _ Hlast) as [Hfl _].
  assert (Hfh : isfinite (hd NaN (map fst (sorted_samples md))) = true).
  { rewrite Hsp. cbn [map hd]. apply (Hg p0). rewrite Hsp. now left. }
  destruct t as [q| | |]; try discriminate.
  - apply np_interp_between; [exact Hs|now apply List.Forall_forall|
                              rewrite Hsp; discriminate|].
    apply fleb_fltb_false; [reflexivity| |exact H1].
    destruct (hd NaN (map fst (sorted_samples md))); try discriminate; reflexivity.
  - destruct ((List.last (sorted_samples md) d).1); discriminate.
  - destruct (hd NaN (map fst (sorted_samples md))); discriminate.
Qed.

Lemma fst_indexed (a : list num) : map fst (combine a (seq 0 (length a))) = a.
Proof.
  generalize 0%nat. induction a as [|x a IH]; intros s; simpl; [reflexivity|].
  now rewrite IH.
Qed.

Lemma strictly_sorted_fst (sp : list (num * nat)) :
  StronglySorted (fun a b => (a.1 <? b.1)%num = true) sp ->
  StronglySorted (fun a b => (a <? b)%num = true) (map fst sp).
Proof.
  induction 1 as [|p sp _ IH Hp]; [constructor|].
  cbn [map]. constructor; [exact IH|].
  apply List.Forall_map. exact Hp.
Qed.

(* ------------------------------------------------------------------ *)
(** ** The interpolator cache *)

Lemma create_interpolators_valid (self : ThermoelectricCalculator)
    (material_type composition : string) (md : MaterialData) :
  material_table self material_type composition = Some md ->
  valid_table md ->
  interpolators (create_interpolators self material_type composition)
    !! interp_key material_type composition = Some (table_interpolators md).
Proof.
  intros Hdata Hvalid. unfold create_interpolators.
  unfold material_table in Hdata. rewrite Hdata. cbn [mbind option_bind].
  rewrite (build_interpolators_valid md Hvalid). cbn [interpolators].
  apply lookup_insert_eq.
Qed.

Lemma ensure_interpolators_fresh (self : ThermoelectricCalculator)
    (material_type composition : string) (md : MaterialData) :
  interpolators self !! interp_key material_type composition = None ->
  material_table self material_type composition = Some md ->
  valid_table md ->
  interpolators (ensure_interpolators self material_type composition)
    !! interp_key material_type composition = Some (table_interpolators md).
Proof.
  intros Hnone Hdata Hvalid. unfold ensure_interpolators. rewrite Hnone.
  now apply create_interpolators_valid.
Qed.

(** Clamping at the ends of the table.  For a well-formed table (at
    least two samples, finite pairwise distinct temperatures, columns of
    one length) [create_interpolators] stores interpolators over the
    samples sorted ascending by temperature; for each of the three
    properties a lookup at or below the lowest sampled temperature
    returns the value sampled at the lowest temperature, and a lookup at
    or above the highest one returns the value sampled at the highest. *)
Theorem interpolators_flat_clamp
    (self : ThermoelectricCalculator) (material_type composition : string)
    (md : MaterialData) :
  material_table self material_type composition = Some md ->
  valid_table md ->
  exists ips : Interpolators,
    interpolators (create_interpolators self material_type composition)
      !! interp_key material_type composition = Some ips /\
    (ip_x (i_seebeck ips) = ip_x (i_resistivity ips) /\
     ip_x (i_seebeck ips) = ip_x (i_thermal_cond ips) /\
     Permutation (ip_x (i_seebeck ips)) (md_temp md) /\
     StronglySorted (fun a b => (a <? b)%num = true) (ip_x (i_seebeck ips))) /\
    forall (i : nat) (ti : num),
      md_temp md !! i = Some ti ->
      (Forall (fun x => (ti <=? x)%num = true) (md_temp md) ->
       forall t : num, (t <=? ti)%num = true ->
         interp1d_call (i_seebeck ips) t = get (md_seebeck md) i /\
         interp1d_call (i_resistivity ips) t = get (md_resistivity md) i /\
         interp1d_call (i_thermal_cond ips) t = get (md_thermal_cond md) i) /\
      (Forall (fun x => (x <=? ti)%num = true) (md_temp md) ->
       forall t : num, (ti <=? t)%num = true ->
         interp1d_call (i_seebeck ips) t = get (md_seebeck md) i /\
         interp1d_call (i_resistivity ips) t = get (md_resistivity md) i /\
         interp1d_call (i_thermal_cond ips) t = get (md_thermal_cond md) i).
Proof.
  intros Hdata Hvalid.
  exists (table_interpolators md). split; [|split].
  - now apply create_interpolators_valid.
  - cbn [table_interpolators i_seebeck i_resistivity i_thermal_cond
         column_interpolator ip_x].
    split; [reflexivity|]. split; [reflexivity|]. split.
    + unfold sorted_samples.
      rewrite (Permutation_map fst (sort_keys_perm _)), fst_indexed. reflexivity.
    + apply strictly_sorted_fst, sorted_samples_strict, Hvalid.
  - intros i ti Hi. cbn [table_interpolators i_seebeck i_resistivity i_thermal_cond].
    split; intros Hext t Ht; repeat split;
      first [ eapply column_interpolator_low; eassumption
            | eapply column_interpolator_high; eassumption ].
Qed.

Lemma unsorted_table_valid : valid_table unsorted_table.
Proof.
  unfold valid_table, unsorted_table. cbn [md_temp md_seebeck md_resistivity md_thermal_cond].
  repeat split; try reflexivity; try (simpl; lia).
  - repeat constructor.
  - intros i j ti tj Hi Hj Hne.
    destruct i as [|[|[|i]]]; destruct j as [|[|[|j]]];
      simpl in Hi, Hj; try discriminate; try congruence;
      injection Hi as <-; injection Hj as <-; reflexivity.
Defined.

Lemma interpolators_flat_clamp_witness :
  exists ips : Interpolators,
    interpolators (create_interpolators (p_calculator unsorted_table) "p" "0.02")
      !! interp_key "p" "0.02" = Some ips /\
    interp1d_call (i_seebeck ips) (Fin 300) = Fin 1 /\
    interp1d_call (i_seebeck ips) (Fin 250) = Fin 1 /\
    interp1d_call (i_thermal_cond ips) (Fin 700) = Fin 300 /\
    interp1d_call (i_thermal_cond ips) (Fin 750) = Fin 300.
Proof.
  destruct (interpolators_flat_clamp (p_calculator unsorted_table) "p" "0.02"
              unsorted_table eq_refl unsorted_table_valid) as (ips & Hips & _ & Hclamp).
  exists ips. split; [exact Hips|].
  destruct (Hclamp 1%nat (Fin 300) eq_refl) as [Hlow _].
  destruct (Hclamp 0%nat (Fin 700) eq_refl) as [_ Hhigh].
  assert (Hmin : Forall (fun x => (Fin 300 <=? x)%num = true) (md_temp unsorted_table))
    by (repeat constructor).
  assert (Hmax : Forall (fun x => (x <=? Fin 700)%num = true) (md_temp unsorted_table))
    by (repeat constructor).
  repeat split.
  - apply (Hlow Hmin (Fin 300) eq_refl).
  - apply (Hlow Hmin (Fin 250) eq_refl).
  - apply (Hhigh Hmax (Fin 700) eq_refl).
  - apply (Hhigh Hmax (Fin 750) eq_refl).
Defined.



(* ------------------------------------------------------------------ *)
(** ** The figure of merit *)

(** The figure of merit is never negative.  For a material used for
    the first time whose table is well formed, with finite Seebeck
    samples and strictly positive resistivity and thermal-conductivity
    samples, [calculate_zt] at any finite temperature [T >= 0] returns a
    finite non-negative number, for P-type and N-type (negative Seebeck)
    data alike. *)
Theorem calculate_zt_nonnegative
    (self : ThermoelectricCalculator) (material_type composition : string)
    (md : MaterialData) (slo shi rlo rhi klo khi T : Q) :
  interpolators self !! interp_key material_type composition = None ->
  material_table self material_type composition = Some md ->
  valid_table md ->
  Forall (finite_between slo shi) (md_seebeck md) ->
  Forall (finite_between rlo rhi) (md_resistivity md) -> 0 < rlo ->
  Forall (finite_between klo khi) (md_thermal_cond md) -> 0 < klo ->
  0 <= T ->
  exists zt : Q,
    (calculate_zt self material_type composition (Fin T)).2 = Fin zt /\ 0 <= zt.
Proof.
  intros Hnone Hdata Hvalid Hs Hr Hrlo Hk Hklo HT.
  unfold calculate_zt.
  rewrite (ensure_interpolators_fresh self material_type composition md Hnone Hdata Hvalid).
  cbn [snd table_interpolators i_seebeck i_resistivity i_thermal_cond].
  pose proof Hvalid as (_ & Hls & Hlr & Hlk & _).
  destruct (column_interpolator_between md (md_seebeck md) slo shi (Fin T)
              Hvalid Hls Hs eq_refl) as (s & -> & _).
  destruct (column_interpolator_between md (md_resistivity md) rlo rhi (Fin T)
              Hvalid Hlr Hr eq_refl) as (r & -> & Hr').
  destruct (column_interpolator_between md (md_thermal_cond md) klo khi (Fin T)
              Hvalid Hlk Hk eq_refl) as (k & -> & Hk').
  assert (Hkr : 0 < k * r) by nra.
  cbn [fabs fsq fmul]. rewrite fdiv_Fin by lra.
  eexists; split; [reflexivity|].
  apply Qle_shift_div_l; [exact Hkr|].
  pose proof (Qabs_nonneg s). nra.
Qed.

Lemma calculate_zt_nonnegative_witness :
  exists zt : Q,
    (calculate_zt (n_calculator unsorted_table) "n" "0.0004" (Fin 432)).2 = Fin zt /\
    0 <= zt.
Proof.
  apply (calculate_zt_nonnegative (n_calculator unsorted_table) "n" "0.0004"
           unsorted_table 1 3 10 30 100 300 432 eq_refl eq_refl unsorted_table_valid);
    try reflexivity; try discriminate;
    repeat constructor; eexists; (split; [reflexivity|]); split; discriminate.
Defined.

Lemma get_map (f : num -> num) (l : list num) (i : nat) (x : num) :
  l !! i = Some x -> get (map f l) i = f x.
Proof.
  intros H. unfold get. apply nth_lookup_Some. rewrite lookup_map, H. reflexivity.
Qed.

(* ------------------------------------------------------------------ *)
(** ** Degraded results *)

Lemma ensure_interpolators_missing (self : ThermoelectricCalculator)
    (material_type composition : string) :
  interpolators self !! interp_key material_type composition = None ->
  material_table self material_type composition ≫= build_interpolators = None ->
  ensure_interpolators self material_type composition = self.
Proof.
  intros Hnone Hdata. unfold ensure_interpolators, create_interpolators.
  unfold material_table in Hdata. now rewrite Hnone, Hdata.
Qed.

Lemma iterate_without_interpolators (Th Tc : num) (n_points : nat) (dx J : num)
    (remaining iter_count : nat) (T : list num) :
  iterate None Th Tc n_points dx J remaining iter_count T
  = match remaining with O => Some (T, []) | S _ => None end.
Proof. destruct remaining; reflexivity. Qed.

(** No material, no failure.  When a material has no usable table (its
    file was not read, the composition is unknown, or the table cannot
    be interpolated) and nothing is cached for it, the three methods
    still return a value and leave the calculator as it was:
    [calculate_zt] returns [0], [calculate_efficiency] returns [(0, 0)],
    and [calculate_temperature_distribution] returns the uniform grid on
    [[0, 1]] with the linear ramp from [Tc] to [Th]. *)
Theorem missing_material_fallbacks
    (self : ThermoelectricCalculator) (material_type composition : string) :
  interpolators self !! interp_key material_type composition = None ->
  material_table self material_type composition ≫= build_interpolators = None ->
  (forall temperature : num,
      calculate_zt self material_type composition temperature = (self, Fin 0)) /\
  (forall (Th Tc current_density : num) (x T : option (list num)),
      calculate_efficiency self Th Tc material_type composition current_density x T
      = (self, (Fin 0, Fin 0))) /\
  (forall (Th Tc : num) (n_points : nat) (current_density : num) (max_iter : nat),
      calculate_temperature_distribution self Th Tc n_points material_type composition
        current_density max_iter
      = (self, (linspace (Fin 0) (Fin 1) n_points, linspace Tc Th n_points))).
Proof.
  intros Hnone Hdata.
  pose proof (ensure_interpolators_missing self material_type composition Hnone Hdata)
    as Hens.
  split; [|split].
  - intros temperature. unfold calculate_zt. now rewrite Hens, Hnone.
  - intros Th Tc current_density x T. unfold calculate_efficiency.
    destruct (Th <=? Tc)%num; [reflexivity|].
    rewrite Hens. unfold efficiency_body, efficiency_terms.
    destruct (efficiency_field Th Tc x T) as [x' T'].
    destruct (mapM _ _); cbn [mbind option_bind]; [|reflexivity].
    now rewrite Hnone.
  - intros Th Tc n_points current_density max_iter.
    unfold calculate_temperature_distribution, temperature_distribution_body.
    rewrite Hens, Hnone.
    destruct (pydiv _ _); cbn [mbind option_bind]; [|reflexivity].
    rewrite iterate_without_interpolators. now destruct max_iter.
Qed.

Lemma missing_material_fallbacks_witness :
  calculate_zt empty_calculator "p" "0.02" (Fin 400) = (empty_calculator, Fin 0) /\
  calculate_efficiency empty_calculator (Fin 500) (Fin 300) "p" "0.02" (Fin (-1)) None None
  = (empty_calculator, (Fin 0, Fin 0)) /\
  calculate_temperature_distribution empty_calculator (Fin 500) (Fin 300) 10 "p" "0.02"
    (Fin (-1)) 20
  = (empty_calculator, (linspace (Fin 0) (Fin 1) 10, linspace (Fin 300) (Fin 500) 10)).
Proof.
  destruct (missing_material_fallbacks empty_calculator "p" "0.02" eq_refl eq_refl)
    as (Hzt & Heff & Htemp).
  split; [apply Hzt|]. split; [apply Heff|apply Htemp].
Defined.

(** A temperature array shorter than the position array is an index
    error inside the [try] block: the result is [(0, 0)]. *)
Theorem calculate_efficiency_short_field
    (self : ThermoelectricCalculator) (Th Tc : num)
    (material_type composition : string) (current_density : num)
    (x T : list num) :
  (3 <= length x)%nat -> (length T < length x)%nat ->
  (calculate_efficiency self Th Tc material_type composition current_density
     (Some x) (Some T)).2 = (Fin 0, Fin 0).
Proof.
  intros Hx HT. unfold calculate_efficiency.
  destruct (Th <=? Tc)%num; [reflexivity|].
  unfold efficiency_body, efficiency_terms, efficiency_field.
  assert (E : (length x <? 3)%nat = false) by (apply Nat.ltb_ge; lia).
  rewrite E.
  assert (Hnone : mapM (fun i => T !! i) (seq 0 (length x)) = None).
  { apply mapM_None_2, Exists_exists. exists (length T). split.
    - apply elem_of_seq. lia.
    - apply lookup_ge_None_2. lia. }
  rewrite Hnone. reflexivity.
Qed.

Lemma calculate_efficiency_short_field_witness :
  (calculate_efficiency carnot_gap_calculator (Fin 500) (Fin 300) "n" "0.0004" (Fin 1)
     (Some [Fin 0; Fin (1 # 2); Fin 1]) (Some [Fin 300; Fin 500])).2 = (Fin 0, Fin 0).
Proof.
  apply calculate_efficiency_short_field; simpl; lia.
Defined.

(* ------------------------------------------------------------------ *)
(** ** Sign of the returned efficiency *)

Lemma zero_or_nan_mul (j : Q) (v : num) : j == 0 -> zero_or_nan (Fin j * v)%num.
Proof.
  intros Hj. destruct v as [a| | |]; cbn [fmul].
  - left. apply feqb_Fin. rewrite Hj. ring.
  - right. rewrite (proj1 (Qeq_alt j 0) Hj). reflexivity.
  - right. assert (E : 0 == j) by (symmetry; exact Hj).
    rewrite (proj1 (Qeq_alt 0 j) E). reflexivity.
  - right. reflexivity.
Qed.

Lemma zero_or_nan_div_mul (v q : num) :
  zero_or_nan v -> fneb q (Fin 0) = true -> zero_or_nan (v / q * Fin 100)%num.
Proof.
  intros [Hv|Hv] Hq.
  - destruct v as [a| | |]; try discriminate. apply feqb_Fin in Hv.
    destruct q as [b| | |].
    + unfold fneb in Hq. apply negb_true_iff, feqb_Fin_false in Hq.
      rewrite fdiv_Fin by assumption. left. cbn [fmul]. apply feqb_Fin.
      rewrite Hv. field. exact Hq.
    + left. reflexivity.
    + left. reflexivity.
    + right. reflexivity.
  - destruct v; try discriminate. right. destruct q; reflexivity.
Qed.

Lemma zero_or_nan_not_positive (v : num) : zero_or_nan v -> (v >? Fin 0)%num = false.
Proof.
  intros [H|H]; destruct v; try discriminate; try reflexivity.
  apply feqb_Fin in H. apply fltb_Fin_false. lra.
Qed.

Lemma zero_or_nan_not_negative (v : num) : zero_or_nan v -> (v <? Fin 0)%num = false.
Proof.
  intros [H|H]; destruct v; try discriminate; try reflexivity.
  apply feqb_Fin in H. apply fltb_Fin_false. lra.
Qed.

Lemma capped_not_positive (v c : num) :
  zero_or_nan v -> (v >? c)%num = true -> (c * Fin (9 # 10) >? Fin 0)%num = false.
Proof.
  intros Hv Hc. unfold fgtb in *.
  destruct Hv as [Hv|Hv]; destruct v as [a| | |]; try discriminate.
  - apply feqb_Fin in Hv. destruct c as [b| | |]; try discriminate; try reflexivity.
    apply fltb_Fin in Hc. cbn [fmul]. apply fltb_Fin_false. lra.
  - destruct c; discriminate.
Qed.

(** The body of the [try] block at zero current. *)
Lemma efficiency_body_zero_current
    (self : ThermoelectricCalculator) (Th Tc : num)
    (material_type composition : string) (c : Q) (x T : option (list num))
    (r : num * num) :
  c == 0 ->
  efficiency_body self Th Tc material_type composition (Fin c) x T = Some r ->
  (r.1 >? Fin 0)%num = false /\ zero_or_nan r.2.
Proof.
  intros Hc. unfold efficiency_body.
  destruct (efficiency_terms _ _ _ _ _ _ _ _) as [t|] eqn:Ht;
    cbn [mbind option_bind]; [|discriminate].
  pose proof (efficiency_terms_J _ _ _ _ _ _ _ _ _ Ht) as HJ.
  assert (Hpow : zero_or_nan (raw_power t)).
  { unfold raw_power. rewrite HJ. cbn [efficiency_J fmul].
    apply zero_or_nan_mul. rewrite Hc. ring. }
  unfold efficiency_of.
  destruct (fneb (et_q_last t) (Fin 0)) eqn:Hq; cbn [mbind option_bind];
    [|intros [= <-]; split; [reflexivity|exact Hpow]].
  pose proof (zero_or_nan_div_mul _ _ Hpow Hq) as He.
  rewrite (zero_or_nan_not_negative _ He).
  destruct (pydiv (Th - Tc)%num Th) as [ratio|]; cbn [mbind option_bind];
    [|discriminate].
  intros [= <-]. cbn [fst snd]. split; [|exact Hpow].
  destruct (_ >? (ratio * Fin 100))%num eqn:Hcap.
  - eapply capped_not_positive; eassumption.
  - now apply zero_or_nan_not_positive.
Qed.

(** Without current there is no output.  For a zero current density
    [calculate_efficiency] never returns a positive efficiency, and the
    returned power is zero (or [NaN], for a non-finite field or table),
    whatever the temperatures, material and field. *)
Theorem calculate_efficiency_zero_current
    (self : ThermoelectricCalculator) (Th Tc : num)
    (material_type composition : string) (c : Q) (x T : option (list num)) :
  c == 0 ->
  let r := (calculate_efficiency self Th Tc material_type composition (Fin c) x T).2 in
  (r.1 >? Fin 0)%num = false /\ zero_or_nan r.2.
Proof.
  intros Hc r. subst r. unfold calculate_efficiency.
  destruct (Th <=? Tc)%num; [split; [reflexivity|now left]|].
  destruct (efficiency_body _ _ _ _ _ _ _ _) as [r|] eqn:Hbody; cbn [snd].
  - eapply efficiency_body_zero_current; eassumption.
  - split; [reflexivity|now left].
Qed.

Lemma calculate_efficiency_zero_current_witness :
  ((calculate_efficiency carnot_gap_calculator (Fin 500) (Fin 300) "n" "0.0004"
      (Fin 0) None None).2.1 >? Fin 0)%num = false.
Proof.
  apply (calculate_efficiency_zero_current carnot_gap_calculator (Fin 500) (Fin 300)
           "n" "0.0004" 0 None None). reflexivity.
Defined.

(** For a positive hot-side temperature above the cold side the returned
    efficiency is not above the Carnot limit. *)
Lemma efficiency_at_most_carnot
    (self : ThermoelectricCalculator) (h : Q) (Tc : num)
    (material_type composition : string) (current_density : num)
    (x T : option (list num)) :
  0 < h -> (Tc <? Fin h)%num = true ->
  ((calculate_efficiency self (Fin h) Tc material_type composition
      current_density x T).2.1 >? carnot_limit (Fin h) Tc)%num = false.
Proof.
  intros Hh Hlt. rewrite calculate_efficiency_valid by assumption.
  destruct (fgtb_carnot_cap _ (carnot_limit_positive h Tc Hh Hlt)) as [Hcap Hzero].
  unfold efficiency_body.
  destruct efficiency_terms as [t|]; cbn [mbind option_bind default fst snd id];
    [|exact Hzero].
  unfold efficiency_of.
  destruct (fneb (et_q_last t) (Fin 0)); cbn [mbind option_bind default fst snd id];
    [|exact Hzero].
  destruct (pydiv (Fin h - Tc)%num (Fin h)) as [ratio|] eqn:Hdiv;
    cbn [mbind option_bind default fst snd id]; [|exact Hzero].
  assert (Hratio : (ratio * Fin 100)%num = carnot_limit (Fin h) Tc).
  { unfold pydiv in Hdiv. destruct (Qeq_bool h 0); [discriminate|].
    injection Hdiv as <-. reflexivity. }
  rewrite Hratio.
  set (e := (raw_power t / et_q_last t * Fin 100)%num).
  destruct ((if (e <? Fin 0)%num then Fin 0 else e) >? carnot_limit (Fin h) Tc)%num eqn:Hc;
    [exact Hcap|exact Hc].
Qed.

(** The returned efficiency is never negative when the hot side is at a
    positive temperature above the cold side. *)
Theorem calculate_efficiency_nonnegative
    (self : ThermoelectricCalculator) (h : Q) (Tc : num)
    (material_type composition : string) (current_density : num)
    (x T : option (list num)) :
  0 < h -> (Tc <? Fin h)%num = true ->
  ((calculate_efficiency self (Fin h) Tc material_type composition
      current_density x T).2.1 <? Fin 0)%num = false.
Proof.
  intros Hh Hlt. rewrite calculate_efficiency_valid by assumption.
  unfold efficiency_body.
  destruct efficiency_terms as [t|]; cbn [mbind option_bind default fst snd id];
    [|reflexivity].
  unfold efficiency_of.
  destruct (fneb (et_q_last t) (Fin 0)); cbn [mbind option_bind default fst snd id];
    [|reflexivity].
  destruct (pydiv (Fin h - Tc)%num (Fin h)) as [ratio|] eqn:Hdiv;
    cbn [mbind option_bind default fst snd id]; [|reflexivity].
  assert (Hratio : (ratio * Fin 100)%num = carnot_limit (Fin h) Tc).
  { unfold pydiv in Hdiv. destruct (Qeq_bool h 0); [discriminate|].
    injection Hdiv as <-. reflexivity. }
  rewrite Hratio.
  set (e := (raw_power t / et_q_last t * Fin 100)%num).
  destruct (_ >? carnot_limit (Fin h) Tc)%num.
  - destruct (carnot_limit_positive h Tc Hh Hlt) as [->|(c & -> & Hc)]; [reflexivity|].
    cbn [fmul]. apply fltb_Fin_false. lra.
  - destruct (e <? Fin 0)%num eqn:He; [reflexivity|exact He].
Qed.

Lemma calculate_efficiency_nonnegative_witness :
  ((calculate_efficiency negative_power_calculator (Fin 500) (Fin 300) "p" "0.02"
      (Fin (-1)) negative_power_x negative_power_T).2.1 <? Fin 0)%num = false.
Proof.
  apply (calculate_efficiency_nonnegative negative_power_calculator 500 (Fin 300)
           "p" "0.02" (Fin (-1)) negative_power_x negative_power_T); reflexivity.
Defined.

(* ------------------------------------------------------------------ *)
(** ** Number of iterations *)

Lemma iterations_run_app (l1 l2 : list solver_event) :
  iterations_run (l1 ++ l2) = (iterations_run l1 + iterations_run l2)%nat.
Proof.
  induction l1 as [|e l1 IH]; [reflexivity|].
  destruct e; simpl; rewrite IH; reflexivity.
Qed.

Lemma stopped_early_app (l1 l2 : list solver_event) :
  stopped_early l2 -> stopped_early (l1 ++ l2).
Proof.
  unfold stopped_early. intros H.
  destruct l2 as [|e l2]; [destruct H|].
  assert (E : List.last (l1 ++ e :: l2) (LogNonFinite 0) = List.last (e :: l2) (LogNonFinite 0)).
  { induction l1 as [|a l1 IH]; [reflexivity|].
    rewrite <- IH. cbn [app].
    destruct (l1 ++ e :: l2) eqn:El; [destruct l1; discriminate|]. reflexivity. }
  now rewrite E.
Qed.

Lemma iterate_iteration_bound (oips : option Interpolators) (Th Tc : num)
    (n_points : nat) (dx J : num) (remaining : nat) :
  forall (iter_count : nat) (T T' : list num) (log : list solver_event),
    iterate oips Th Tc n_points dx J remaining iter_count T = Some (T', log) ->
    (iterations_run log <= remaining)%nat /\
    ((iterations_run log < remaining)%nat -> stopped_early log).
Proof.
  induction remaining as [|remaining IH]; intros iter_count T T' log Hrun.
  - injection Hrun as _ <-. split; [reflexivity|]. simpl. lia.
  - cbn [iterate] in Hrun.
    destruct oips as [ips|]; [|discriminate]. cbn [mbind option_bind] in Hrun.
    destruct (n_points =? 0)%nat; [discriminate|].
    destruct (LinAlg.solve _ _) as [sol|].
    + set (T_new := map _ _) in Hrun.
      destruct (np_max _) as [max_change|]; [|discriminate].
      cbn [mbind option_bind] in Hrun.
      set (pre := if has_nan sol || has_inf sol then [LogNonFinite (S iter_count)] else [])
        in Hrun.
      assert (Hpre : iterations_run pre = 0%nat) by (subst pre; now destruct (_ || _)).
      destruct (max_change <? Fin (1 # 100))%num.
      * injection Hrun as _ <-. rewrite !iterations_run_app, Hpre. simpl.
        split; [lia|]. intros _. rewrite <- app_assoc.
        apply stopped_early_app, stopped_early_app. exact I.
      * destruct (iterate (Some ips) Th Tc n_points dx J remaining (S iter_count) T_new)
          as [[T'' log'']|] eqn:Hrec; [|discriminate].
        cbn [mbind option_bind] in Hrun. injection Hrun as _ <-.
        destruct (IH _ _ _ _ Hrec) as [Hle Hearly].
        rewrite !iterations_run_app, Hpre. simpl. split; [lia|].
        intros Hlt. apply stopped_early_app, Hearly. lia.
    + injection Hrun as _ <-. simpl. split; [lia|]. intros _. exact I.
Qed.

(** The iteration cap.  [calculate_temperature_distribution] never runs
    more than [max_iter] iterations, and when it runs fewer, either an
    exception sent it to the fallback (nothing is logged) or the loop was
    left by convergence or by a singular system. *)
Theorem solver_iterations_bounded
    (self : ThermoelectricCalculator) (Th Tc : num) (n_points : nat)
    (material_type composition : string) (current_density : num) (max_iter : nat) :
  let log := solver_log self Th Tc n_points material_type composition
               current_density max_iter in
  (iterations_run log <= max_iter)%nat /\
  ((iterations_run log < max_iter)%nat -> log = [] \/ stopped_early log).
Proof.
  unfold solver_log, temperature_distribution_body.
  destruct (pydiv _ _) as [dx|]; cbn [mbind option_bind];
    [|split; [simpl; lia|now left]].
  destruct (iterate _ _ _ _ _ _ _ _ _) as [[T log]|] eqn:Hrun; cbn [mbind option_bind];
    [|split; [simpl; lia|now left]].
  destruct (iterate_iteration_bound _ _ _ _ _ _ _ _ _ _ _ Hrun) as [Hle Hearly].
  split; [exact Hle|]. intros Hlt. right. now apply Hearly.
Qed.

(* ------------------------------------------------------------------ *)
(** ** The cache does not change results *)

Lemma ensure_interpolators_idempotent (self : ThermoelectricCalculator)
    (material_type composition : string) :
  ensure_interpolators (ensure_interpolators self material_type composition)
    material_type composition
  = ensure_interpolators self material_type composition.
Proof.
  assert (Hkeep : forall s : ThermoelectricCalculator,
             is_Some (interpolators s !! interp_key material_type composition) ->
             ensure_interpolators s material_type composition = s).
  { intros s [ips Hs]. unfold ensure_interpolators. now rewrite Hs. }
  destruct (interpolators self !! interp_key material_type composition) eqn:Hc.
  - rewrite (Hkeep self) by eauto. apply Hkeep. eauto.
  - assert (E : ensure_interpolators self material_type composition
                = create_interpolators self material_type composition)
      by (unfold ensure_interpolators; now rewrite Hc).
    rewrite E. unfold create_interpolators.
    destruct (_ ≫= build_interpolators) as [ips|] eqn:Hb.
    + apply Hkeep. cbn [interpolators]. rewrite lookup_insert_eq. eauto.
    + rewrite E. unfold create_interpolators. now rewrite Hb.
Qed.

(** Repeating a call on the calculator it returned gives the same
    result and the same calculator: filling the interpolator cache has no
    effect on what the three methods compute. *)
Theorem calculator_calls_idempotent
    (self : ThermoelectricCalculator) (material_type composition : string) :
  (forall temperature : num,
      let r := calculate_zt self material_type composition temperature in
      calculate_zt r.1 material_type composition temperature = r) /\
  (forall (Th Tc current_density : num) (x T : option (list num)),
      let r := calculate_efficiency self Th Tc material_type composition
                 current_density x T in
      calculate_efficiency r.1 Th Tc material_type composition current_density x T = r) /\
  (forall (Th Tc : num) (n_points : nat) (current_density : num) (max_iter : nat),
      let r := calculate_temperature_distribution self Th Tc n_points material_type
                 composition current_density max_iter in
      calculate_temperature_distribution r.1 Th Tc n_points material_type composition
        current_density max_iter = r).
Proof.
  split; [|split].
  - intros temperature. cbv zeta.
    set (r := calculate_zt self material_type composition temperature).
    assert (Hr : r.1 = ensure_interpolators self material_type composition)
      by (subst r; unfold calculate_zt; now destruct (_ !! _)).
    unfold calculate_zt. rewrite Hr, ensure_interpolators_idempotent. reflexivity.
  - intros Th Tc current_density x T. cbv zeta.
    set (r := calculate_efficiency self Th Tc material_type composition
                current_density x T).
    destruct (Th <=? Tc)%num eqn:Hle.
    + assert (Hr : r = (self, (Fin 0, Fin 0)))
        by (subst r; unfold calculate_efficiency; now rewrite Hle).
      rewrite Hr. cbn [fst]. unfold calculate_efficiency. now rewrite Hle.
    + assert (Hr : r.1 = ensure_interpolators self material_type composition)
        by (subst r; unfold calculate_efficiency; rewrite Hle;
            now destruct (efficiency_body _ _ _ _ _ _ _ _)).
      unfold calculate_efficiency.
      rewrite Hle, Hr, ensure_interpolators_idempotent.
      subst r. unfold calculate_efficiency. now rewrite Hle.
  - intros Th Tc n_points current_density max_iter. cbv zeta.
    set (r := calculate_temperature_distribution self Th Tc n_points material_type
                composition current_density max_iter).
    assert (Hr : r.1 = ensure_interpolators self material_type composition).
    { subst r. unfold calculate_temperature_distribution.
      now destruct (temperature_distribution_body _ _ _ _ _ _ _ _) as [[[? ?] ?]|]. }
    unfold calculate_temperature_distribution.
    rewrite Hr, ensure_interpolators_idempotent. reflexivity.
Qed.

(** [create_interpolators] writes one cache entry at most: the measured
    data and the interpolators of every other key are left as they
    were; and [ensure_interpolators] never replaces an entry that is
    already cached. *)
Theorem create_interpolators_frame
    (self : ThermoelectricCalculator) (material_type composition : string) :
  let self' := create_interpolators self material_type composition in
  p_type_data self' = p_type_data self /\
  n_type_data self' = n_type_data self /\
  (forall key : string, key <> interp_key material_type composition ->
      interpolators self' !! key = interpolators self !! key) /\
  (is_Some (interpolators self !! interp_key material_type composition) ->
   ensure_interpolators self material_type composition = self).
Proof.
  unfold create_interpolators.
  destruct (_ ≫= build_interpolators) as [ips|]; cbn [p_type_data n_type_data interpolators].
  - repeat split.
    + intros key Hkey. now rewrite lookup_insert_ne.
    + intros [ips' Hc]. unfold ensure_interpolators. now rewrite Hc.
  - repeat split.
    intros [ips' Hc]. unfold ensure_interpolators. now rewrite Hc.
Qed.

(* ------------------------------------------------------------------ *)
(** ** The efficiency curves *)

Lemma calculate_efficiency_calculator
    (self : ThermoelectricCalculator) (Th Tc : num)
    (material_type composition : string) (current_density : num)
    (x T : option (list num)) :
  (calculate_efficiency self Th Tc material_type composition current_density x T).1
  = if (Th <=? Tc)%num then self
    else ensure_interpolators self material_type composition.
Proof.
  unfold calculate_efficiency. destruct (Th <=? Tc)%num; [reflexivity|].
  now destruct (efficiency_body _ _ _ _ _ _ _ _).
Qed.

(** A filled cache does not change what [calculate_efficiency] returns. *)
Lemma calculate_efficiency_cached
    (self : ThermoelectricCalculator) (Th Tc : num)
    (material_type composition : string) (current_density : num)
    (x T : option (list num)) :
  (calculate_efficiency (ensure_interpolators self material_type composition)
     Th Tc material_type composition current_density x T).2
  = (calculate_efficiency self Th Tc material_type composition current_density x T).2.
Proof.
  unfold calculate_efficiency. destruct (Th <=? Tc)%num; [reflexivity|].
  rewrite ensure_interpolators_idempotent.
  now destruct (efficiency_body _ _ _ _ _ _ _ _).
Qed.

Lemma efficiency_curve_eq
    (self : ThermoelectricCalculator) (Th Tc : num)
    (material_type composition : string) (x T : option (list num))
    (currents : list num) (c : ThermoelectricCalculator) :
  c = self \/ c = ensure_interpolators self material_type composition ->
  (efficiency_curve c Th Tc material_type composition x T currents).2
  = positive_points
      (map (fun j => (j, (calculate_efficiency self Th Tc material_type composition
                            j x T).2)) currents).
Proof.
  revert c. induction currents as [|j rest IH]; intros c Hc; [reflexivity|].
  cbn [efficiency_curve map positive_points].
  pose proof (calculate_efficiency_calculator c Th Tc material_type composition j x T) as H1.
  assert (H2 : (calculate_efficiency c Th Tc material_type composition j x T).2
               = (calculate_efficiency self Th Tc material_type composition j x T).2)
    by (destruct Hc as [->| ->]; [reflexivity|apply calculate_efficiency_cached]).
  destruct (calculate_efficiency c Th Tc material_type composition j x T)
    as [c' [eff power]].
  cbn [fst snd] in H1, H2. rewrite <- H2.
  assert (Hc' : c' = self \/ c' = ensure_interpolators self material_type composition).
  { rewrite H1. destruct (Th <=? Tc)%num; [exact Hc|]. right.
    destruct Hc as [->| ->]; [reflexivity|apply ensure_interpolators_idempotent]. }
  specialize (IH c' Hc').
  destruct (efficiency_curve c' Th Tc material_type composition x T rest)
    as [c'' [[js effs] pows]].
  cbn [snd] in IH. rewrite <- IH. now destruct (eff >? Fin 0)%num.
Qed.

Lemma positive_points_spec (results : list (num * (num * num))) :
  let '(valid_currents, efficiencies, powers) := positive_points results in
  length efficiencies = length valid_currents /\
  length powers = length valid_currents /\
  sublist valid_currents (map fst results) /\
  (forall (i : nat) (j e p : num),
      valid_currents !! i = Some j -> efficiencies !! i = Some e ->
      powers !! i = Some p ->
      (j, (e, p)) ∈ results /\ (e >? Fin 0)%num = true) /\
  (forall j e p : num,
      (j, (e, p)) ∈ results -> (e >? Fin 0)%num = true -> j ∈ valid_currents).
Proof.
  induction results as [|[j [eff power]] rest IH].
  - cbn. split; [reflexivity|]. split; [reflexivity|]. split; [constructor|]. split.
    + intros i j e p Hj. discriminate.
    + intros j e p Hin. now apply elem_of_nil in Hin.
  - cbn [positive_points map fst].
    destruct (positive_points rest) as [[js effs] pows].
    destruct IH as (Hl1 & Hl2 & Hsub & Hidx & Hall).
    destruct (eff >? Fin 0)%num eqn:Heff.
    + split; [cbn; lia|]. split; [cbn; lia|]. split; [now constructor|]. split.
      * intros [|i] j' e p Hj He Hp.
        -- cbn in Hj, He, Hp. injection Hj as <-. injection He as <-. injection Hp as <-.
           split; [left|exact Heff].
        -- cbn in Hj, He, Hp. destruct (Hidx i j' e p Hj He Hp) as [Hin Hpos].
           split; [now right|exact Hpos].
      * intros j' e p Hin Hpos. apply elem_of_cons in Hin as [[= -> -> ->]|Hin].
        -- left.
        -- right. eapply Hall; eassumption.
    + split; [exact Hl1|]. split; [exact Hl2|]. split; [now constructor|]. split.
      * intros i j' e p Hj He Hp. destruct (Hidx i j' e p Hj He Hp) as [Hin Hpos].
        split; [now right|exact Hpos].
      * intros j' e p Hin Hpos. apply elem_of_cons in Hin as [[= -> -> ->]|Hin].
        -- congruence.
        -- eapply Hall; eassumption.
Qed.

Lemma feqb_zero_Fin (j : num) :
  (j =? Fin 0)%num = true -> exists c : Q, j = Fin c /\ c == 0.
Proof.
  destruct j as [c| | |]; try discriminate.
  intros H. exists c. split; [reflexivity|now apply feqb_Fin in H].
Qed.

(** The curve of one sweep.  The three lists have the same length; the
    retained currents are a sub-sequence of the sweep; every retained
    point is what [calculate_efficiency] returns for its current on the
    calculator the sweep started from (the cache filled on the way
    changes nothing), and its efficiency is positive; no point at zero
    current is ever retained; every current with a positive efficiency is
    retained; and with [Th <= Tc] the curve is empty. *)
Theorem efficiency_curve_points
    (self : ThermoelectricCalculator) (Th Tc : num)
    (material_type composition : string) (x T : option (list num))
    (currents : list num) :
  let '(valid_currents, efficiencies, powers) :=
    (efficiency_curve self Th Tc material_type composition x T currents).2 in
  length efficiencies = length valid_currents /\
  length powers = length valid_currents /\
  sublist valid_currents currents /\
  (forall (i : nat) (j e p : num),
      valid_currents !! i = Some j -> efficiencies !! i = Some e ->
      powers !! i = Some p ->
      (calculate_efficiency self Th Tc material_type composition j x T).2 = (e, p) /\
      (e >? Fin 0)%num = true /\ (j =? Fin 0)%num = false) /\
  (forall j : num,
      j ∈ currents ->
      ((calculate_efficiency self Th Tc material_type composition j x T).2.1
       >? Fin 0)%num = true ->
      j ∈ valid_currents) /\
  ((Th <=? Tc)%num = true -> valid_currents = []).
Proof.
  rewrite (efficiency_curve_eq self Th Tc material_type composition x T currents self)
    by now left.
  set (results := map (fun j => (j, (calculate_efficiency self Th Tc material_type
                                       composition j x T).2)) currents).
  assert (Hfst : map fst results = currents).
  { subst results. induction currents as [|j rest IH]; cbn; [reflexivity|now f_equal]. }
  assert (Hres : forall j e p, (j, (e, p)) ∈ results <->
            j ∈ currents /\
            (calculate_efficiency self Th Tc material_type composition j x T).2 = (e, p)).
  { intros j e p. subst results. split.
    - intros Hin. apply list_elem_of_fmap_1 in Hin as (j' & [= -> E] & Hin).
      split; [exact Hin|now symmetry].
    - intros [Hin E]. rewrite <- E.
      exact (list_elem_of_fmap_2
               (fun j => (j, (calculate_efficiency self Th Tc material_type composition
                                j x T).2)) currents j Hin). }
  pose proof (positive_points_spec results) as Hspec.
  destruct (positive_points results) as [[js effs] pows].
  destruct Hspec as (Hl1 & Hl2 & Hsub & Hidx & Hall).
  rewrite Hfst in Hsub.
  assert (Hpts : forall (i : nat) (j e p : num),
             js !! i = Some j -> effs !! i = Some e -> pows !! i = Some p ->
             (calculate_efficiency self Th Tc material_type composition j x T).2 = (e, p) /\
             (e >? Fin 0)%num = true /\ (j =? Fin 0)%num = false).
  { intros i j e p Hj He Hp. destruct (Hidx i j e p Hj He Hp) as [Hin Hpos].
    apply Hres in Hin as [Hin Hcall]. split; [exact Hcall|]. split; [exact Hpos|].
    destruct (j =? Fin 0)%num eqn:Hz; [|reflexivity].
    destruct (feqb_zero_Fin j Hz) as (c & -> & Hc0).
    unfold calculate_efficiency in Hcall.
    destruct (Th <=? Tc)%num; [injection Hcall as <- _; discriminate|].
    destruct (efficiency_body _ _ _ _ _ _ _ _) as [r|] eqn:Hbody;
      [|injection Hcall as <- _; discriminate].
    destruct (efficiency_body_zero_current _ _ _ _ _ _ _ _ _ Hc0 Hbody) as [Hnp _].
    cbn [snd] in Hcall. rewrite Hcall in Hnp. cbn [fst] in Hnp. congruence. }
  split; [exact Hl1|]. split; [exact Hl2|]. split; [exact Hsub|].
  split; [exact Hpts|]. split.
  - intros j Hin Hpos.
    destruct (calculate_efficiency self Th Tc material_type composition j x T).2
      as [e p] eqn:Hcall.
    apply (Hall j e p); [|exact Hpos]. apply Hres. now split.
  - intros Hle. destruct js as [|j js']; [reflexivity|].
    destruct effs as [|e effs']; [discriminate|].
    destruct pows as [|p pows']; [discriminate|].
    destruct (Hpts 0%nat j e p eq_refl eq_refl eq_refl) as (Hcall & Hpos & _).
    unfold calculate_efficiency in Hcall. rewrite Hle in Hcall.
    injection Hcall as <- <-. discriminate.
Qed.

(** With a positive hot-side temperature above the cold side, every
    efficiency of the curve lies above zero and not above the Carnot
    limit, the horizontal line [analyze_efficiency_curve] draws with
    it. *)
Theorem efficiency_curve_below_carnot
    (self : ThermoelectricCalculator) (h : Q) (Tc : num)
    (material_type composition : string) (x T : option (list num))
    (currents : list num) :
  0 < h -> (Tc <? Fin h)%num = true ->
  let '(valid_currents, efficiencies, powers) :=
    (efficiency_curve self (Fin h) Tc material_type composition x T currents).2 in
  Forall (fun e => (e >? Fin 0)%num = true /\
                   (e >? carnot_limit (Fin h) Tc)%num = false) efficiencies.
Proof.
  intros Hh Hlt.
  rewrite (efficiency_curve_eq self (Fin h) Tc material_type composition x T currents self)
    by now left.
  induction currents as [|j rest IH]; [constructor|].
  cbn [map positive_points].
  destruct (positive_points _) as [[js effs] pows].
  destruct (calculate_efficiency self (Fin h) Tc material_type composition j x T).2
    as [e p] eqn:Hcall.
  destruct (e >? Fin 0)%num eqn:Hpos; [|exact IH].
  constructor; [|exact IH]. split; [exact Hpos|].
  pose proof (efficiency_at_most_carnot self h Tc material_type composition j x T
                Hh Hlt) as Hcap.
  now rewrite Hcall in Hcap.
Qed.

Lemma efficiency_curve_below_carnot_witness :
  let '(valid_currents, efficiencies, powers) :=
    (efficiency_curve carnot_gap_calculator (Fin 500) (Fin 300) "n" "0.0004"
       None None n_analysis_currents).2 in
  Forall (fun e => (e >? Fin 0)%num = true /\
                   (e >? carnot_limit (Fin 500) (Fin 300))%num = false) efficiencies.
Proof.
  apply (efficiency_curve_below_carnot carnot_gap_calculator 500 (Fin 300)
           "n" "0.0004" None None n_analysis_currents); reflexivity.
Defined.

(* ------------------------------------------------------------------ *)
(** ** The device sweep *)

Lemma device_point_raises
    (calculator : ThermoelectricCalculator) (Th Tc : num)
    (p_composition n_composition : string) (area_ratio : num)
    (x_p T_p x_n T_n : option (list num)) (j : num) :
  device_point calculator Th Tc p_composition n_composition area_ratio
    x_p T_p x_n T_n j = None
  <-> (Fin 1 + area_ratio =? Fin 0)%num = true.
Proof.
  unfold device_point.
  destruct (calculate_efficiency calculator Th Tc "p" p_composition (- j)%num x_p T_p)
    as [calculator1 [p_eff p_power]].
  destruct (calculate_efficiency calculator1 Th Tc "n" n_composition
              (j / area_ratio)%num x_n T_n) as [calculator2 [n_eff n_power]].
  destruct area_ratio as [r| | |].
  - cbn [fadd]. destruct (Fin (1 + r) =? Fin 0)%num eqn:Hz.
    + assert (E : forall v, pydiv v (Fin (1 + r)) = None)
        by (intros v; unfold pydiv; cbn [feqb] in Hz; now rewrite Hz).
      rewrite !E. now cbn.
    + apply feqb_Fin_false in Hz. rewrite !pydiv_Fin by assumption.
      cbn [mbind option_bind fadd].
      assert (Hsum : ~ 1 / (1 + r) + r / (1 + r) == 0).
      { intros E. assert (E' : 1 / (1 + r) + r / (1 + r) == 1) by (field; assumption).
        lra. }
      destruct (_ && _).
      * rewrite pydiv_nonzero by now apply feqb_Fin_false.
        cbn [mbind option_bind]. split; discriminate.
      * cbn [mbind option_bind]. split; discriminate.
  - cbn. destruct (_ && _); cbn; split; discriminate.
  - cbn. destruct (_ && _); cbn; split; discriminate.
  - cbn. destruct (_ && _); cbn; split; discriminate.
Qed.

(** The sweep ends in an exception (a [ZeroDivisionError], caught by the
    method's handler) exactly when there is a current to sweep and the
    area ratio is [-1]; in every other case, a zero, negative or
    non-finite ratio included, it yields one power and one efficiency per
    current. *)
Theorem device_sweep_zero_division
    (calculator : ThermoelectricCalculator) (Th Tc : num)
    (p_composition n_composition : string) (area_ratio : num)
    (x_p T_p x_n T_n : option (list num)) (currents : list num) :
  (device_sweep calculator Th Tc p_composition n_composition area_ratio
     x_p T_p x_n T_n currents = None
   <-> currents <> [] /\ (Fin 1 + area_ratio =? Fin 0)%num = true) /\
  (forall powers efficiencies : list num,
      device_sweep calculator Th Tc p_composition n_composition area_ratio
        x_p T_p x_n T_n currents = Some (powers, efficiencies) ->
      length powers = length currents /\ length efficiencies = length currents).
Proof.
  revert calculator. induction currents as [|j rest IH]; intros calculator.
  - cbn. split.
    + split; [discriminate|]. now intros [H _].
    + intros powers efficiencies [= <- <-]. now split.
  - cbn [device_sweep].
    pose proof (device_point_raises calculator Th Tc p_composition n_composition
                  area_ratio x_p T_p x_n T_n j) as Hpoint.
    destruct (device_point calculator Th Tc p_composition n_composition area_ratio
                x_p T_p x_n T_n j) as [[calculator' pt]|]; cbn [mbind option_bind].
    + destruct (IH calculator') as [Hnone Hsome].
      destruct (device_sweep calculator' Th Tc p_composition n_composition area_ratio
                  x_p T_p x_n T_n rest) as [[powers' efficiencies']|];
        cbn [mbind option_bind].
      * split.
        -- split; [discriminate|]. intros [_ Hz]. apply Hpoint in Hz. discriminate.
        -- intros powers efficiencies [= <- <-].
           destruct (Hsome powers' efficiencies' eq_refl) as [H1 H2].
           split; cbn [length]; congruence.
      * split.
        -- split; [|reflexivity]. intros _. split; [discriminate|].
           now apply Hnone.
        -- discriminate.
    + split.
      * split; [|reflexivity]. intros _. split; [discriminate|]. now apply Hpoint.
      * discriminate.
Qed.

(* ------------------------------------------------------------------ *)
(** ** Unit conversion of the current density *)

(** [dx = L / (n_points - 1)] is defined on two nodes or more. *)
Lemma grid_spacing_defined (n_points : nat) :
  (2 <= n_points)%nat ->
  pydiv (Fin 1) (of_Z (Z.of_nat n_points - 1))
  = Some (Fin 1 / of_Z (Z.of_nat n_points - 1))%num.
Proof.
  intros Hn. apply pydiv_nonzero. apply feqb_Fin_false.
  intros E. unfold Qeq in E. simpl in E. lia.
Qed.

Lemma np_max_nonempty (a : list num) : a <> [] -> is_Some (np_max a).
Proof. destruct a; [congruence|]. intros _. simpl. eauto. Qed.

(** One iteration of the loop on a grid of two nodes or more: the field
    after it, whether the loop then stops or not. *)
Lemma iterate_once (ips : Interpolators) (Th Tc : num) (n_points : nat) (dx J : num)
    (iter_count : nat) (T : list num) :
  (2 <= n_points)%nat -> length T = n_points ->
  let Ab := iteration_system ips Th Tc n_points dx J T in
  exists log : list solver_event,
    iterate (Some ips) Th Tc n_points dx J 1 iter_count T
    = Some (match LinAlg.solve Ab.1 Ab.2 with
            | None => linspace Tc Th n_points
            | Some sol =>
                map (fun t => np_clip t (clip_lo Th Tc) (clip_hi Th Tc))
                  (if has_nan sol || has_inf sol then linspace Tc Th n_points else sol)
            end, log).
Proof.
  intros Hn HT Ab. cbn [iterate mbind option_bind].
  assert (E : (n_points =? 0)%nat = false) by (apply Nat.eqb_neq; lia).
  rewrite E. fold Ab.
  destruct (assemble_shape
              (coefficients J (node_values (seebeck_at ips) n_points T)
                 (node_values (resistivity_at ips) n_points T)
                 (node_values (thermal_cond_at ips) n_points T)) dx Th Tc n_points)
    as (HA & Hrows & Hb).
  fold (iteration_system ips Th Tc n_points dx J T) in HA, Hrows, Hb. fold Ab in HA, Hrows, Hb.
  destruct (LinAlg.solve Ab.1 Ab.2) as [sol|] eqn:Hsolve; [|eauto].
  cbv zeta.
  set (T_new := map (fun t => np_clip t (clip_lo Th Tc) (clip_hi Th Tc)) _).
  assert (Hlen : length T_new = n_points).
  { subst T_new. rewrite length_map.
    destruct (has_nan sol || has_inf sol) eqn:Hbad; [apply length_linspace|].
    rewrite (solve_length _ _ _ Hsolve Hbad); [exact Hb| |congruence|].
    - intros Eb. rewrite Eb in Hb. simpl in Hb. lia.
    - now rewrite Hb. }
  destruct (np_max_nonempty (map fabs (zip_with fsub T_new T))) as [m Hm].
  { intros Enil. apply (f_equal length) in Enil.
    rewrite length_map, length_zip_with, Hlen, HT in Enil. simpl in Enil. lia. }
  rewrite Hm. cbn [mbind option_bind].
  destruct (m <? Fin (1 # 100))%num; cbn [mbind option_bind]; eauto.
Qed.

Lemma get_node_values (f : num -> num) (n i : nat) (T : list num) :
  (i < n)%nat -> get (node_values f n T) i = f (get T i).
Proof.
  intros Hi. unfold node_values, get at 1. apply nth_lookup_Some.
  rewrite lookup_map, lookup_seq_lt by assumption. reflexivity.
Qed.

Lemma lookup_node_values (f : num -> num) (n i : nat) (T : list num) :
  (i < n)%nat -> node_values f n T !! i = Some (f (get T i)).
Proof.
  intros Hi. unfold node_values. rewrite lookup_map, lookup_seq_lt by assumption.
  reflexivity.
Qed.

Lemma length_node_values (f : num -> num) (n : nat) (T : list num) :
  length (node_values f n T) = n.
Proof. unfold node_values. now rewrite length_map, length_seq. Qed.

Lemma get_zip_with (f : num -> num -> num) (a b : list num) (i : nat) :
  (i < length a)%nat -> (i < length b)%nat ->
  get (zip_with f a b) i = f (get a i) (get b i).
Proof.
  intros Ha Hb. unfold get.
  destruct (lookup_lt_is_Some_2 a i Ha) as [x Hx].
  destruct (lookup_lt_is_Some_2 b i Hb) as [y Hy].
  rewrite (nth_lookup_Some _ _ _ _ Hx), (nth_lookup_Some _ _ _ _ Hy).
  apply nth_lookup_Some. rewrite lookup_zip_with, Hx. simpl. now rewrite Hy.
Qed.

(** The last entry of the heat-flux array. *)
Lemma heat_flux_last (c : Coeffs) (dx : num) (T : list num) (n : nat) :
  (2 <= n)%nat ->
  get (heat_flux c dx T n) (n - 1)
  = (((Fin 1 / dx - get (c1 c) (n - 1)) * get T (n - 1) - get T (n - 1 - 1) / dx)
     / get (c2 c) (n - 1))%num.
Proof.
  intros Hn. unfold heat_flux.
  set (step := fun (q : list num) (k : nat) => <[k := _]> q).
  assert (Hlen : forall l q, length (foldl step q l) = length q).
  { induction l as [|k l IH]; intros q; [reflexivity|].
    simpl. rewrite IH. subst step. apply length_insert. }
  replace (seq 1 (n - 1)) with (seq 1 (n - 2) ++ [(n - 1)%nat]).
  2:{ replace (n - 1)%nat with (n - 2 + 1)%nat at 2 by lia.
      rewrite seq_app. simpl. repeat f_equal. lia. }
  rewrite foldl_app. cbn [foldl].
  set (q := foldl step (replicate n (Fin 0)) (seq 1 (n - 2))).
  assert (Hq : length q = n) by (subst q; rewrite Hlen; apply length_replicate).
  unfold get at 1. apply nth_lookup_Some.
  rewrite list_lookup_insert_ne by lia.
  subst step. cbn beta. apply list_lookup_insert_eq. lia.
Qed.

Lemma efficiency_field_length (Th Tc : num) (x T : option (list num)) :
  (3 <= length (efficiency_field Th Tc x T).1)%nat.
Proof.
  unfold efficiency_field.
  destruct x as [xs|], T as [Ts|]; try (cbn [fst]; rewrite length_linspace; lia).
  destruct (length xs <? 3)%nat eqn:E; cbn [fst].
  - rewrite length_linspace. lia.
  - apply Nat.ltb_ge in E. exact E.
Qed.

Lemma lookups_defined (T : list num) (n : nat) :
  (n <= length T)%nat -> is_Some (mapM (fun i => T !! i) (seq 0 n)).
Proof.
  intros Hn. apply mapM_is_Some. apply Forall_forall. intros i Hi.
  apply elem_of_seq in Hi. apply lookup_lt_is_Some_2. lia.
Qed.

(** C6.  The two methods scale the same input current density (A/cm²)
    by different factors.  With the interpolators of the material at hand
    and a grid of two nodes or more:
    - [calculate_temperature_distribution] runs its loop with [J =
      current_density * 100]: the field it returns is the one the loop
      reaches with that [J], and after one iteration it is the clipped
      solution of the system assembled from the coefficients [c1 .. c5]
      at [J = current_density * 100] on the linear ramp;
    - [calculate_efficiency] computes with [J = current_density *
      10000]: the calculation reaches its final step with that [J], the
      heat flux at the last node is [((1/dx - J S/κ) T[n-1] - T[n-2]/dx)
      / (-1/κ)] with that [J], and for [Th > Tc], [Th <> 0] the returned
      power is [J * (cumulative_seebeck + J * cumulative_resistivity)]
      with that [J]. *)
Theorem current_density_conversion_factors
    (self : ThermoelectricCalculator) (ips : Interpolators) (Th Tc : num)
    (n_points : nat) (material_type composition : string) (current_density : num) :
  let self' := ensure_interpolators self material_type composition in
  interpolators self' !! interp_key material_type composition = Some ips ->
  (2 <= n_points)%nat ->
  (let J := (current_density * Fin 100)%num in
   let dx := (Fin 1 / of_Z (Z.of_nat n_points - 1))%num in
   let T0 := linspace Tc Th n_points in
   let Ab := assemble (coefficients J (node_values (seebeck_at ips) n_points T0)
                         (node_values (resistivity_at ips) n_points T0)
                         (node_values (thermal_cond_at ips) n_points T0))
               dx Th Tc n_points in
   (forall max_iter : nat,
       calculate_temperature_distribution self Th Tc n_points material_type composition
         current_density max_iter
       = (self', (linspace (Fin 0) (Fin 1) n_points,
                  match iterate (Some ips) Th Tc n_points dx J max_iter 0 T0 with
                  | Some (T, _) => T
                  | None => T0
                  end))) /\
   (calculate_temperature_distribution self Th Tc n_points material_type composition
      current_density 1).2.2
   = match LinAlg.solve Ab.1 Ab.2 with
     | None => T0
     | Some sol =>
         map (fun t => np_clip t (clip_lo Th Tc) (clip_hi Th Tc))
           (if has_nan sol || has_inf sol then T0 else sol)
     end) /\
  (let J := (current_density * Fin 10000)%num in
   forall x T : option (list num),
     let fld := efficiency_field Th Tc x T in
     let n := length fld.1 in
     let dx := ((List.last fld.1 NaN - hd NaN fld.1) / of_Z (Z.of_nat n - 1))%num in
     let seebeck := seebeck_at ips (get fld.2 (n - 1)) in
     let thermal_cond := thermal_cond_at ips (get fld.2 (n - 1)) in
     (n <= length fld.2)%nat ->
     exists t : EfficiencyTerms,
       efficiency_terms self' Th Tc material_type composition current_density x T
       = Some t /\
       et_J t = J /\
       et_q_last t
       = (((Fin 1 / dx - J * seebeck / thermal_cond) * get fld.2 (n - 1)
           - get fld.2 (n - 1 - 1) / dx) / (Fin (-1) / thermal_cond))%num /\
       ((Tc <? Th)%num = true -> (Th =? Fin 0)%num = false ->
        (calculate_efficiency self Th Tc material_type composition current_density
           x T).2.2
        = (J * (et_seebeck_integral t + J * et_resistivity_integral t))%num)).
Proof.
  intros self' Hips Hn. split.
  - intros J dx T0 Ab.
    assert (Hall : forall max_iter : nat,
               calculate_temperature_distribution self Th Tc n_points material_type
                 composition current_density max_iter
               = (self', (linspace (Fin 0) (Fin 1) n_points,
                          match iterate (Some ips) Th Tc n_points dx J max_iter 0 T0 with
                          | Some (T, _) => T
                          | None => T0
                          end))).
    { intros max_iter.
      unfold calculate_temperature_distribution, temperature_distribution_body.
      fold self'. rewrite Hips, (grid_spacing_defined n_points Hn).
      cbn [mbind option_bind]. fold dx T0. unfold solver_J. fold J.
      now destruct (iterate _ _ _ _ _ _ _ _ _) as [[T log]|]. }
    split; [exact Hall|].
    rewrite Hall. cbn [snd].
    destruct (iterate_once ips Th Tc n_points dx J 0 T0 Hn (length_linspace Tc Th n_points))
      as [log Hrun].
    rewrite Hrun. reflexivity.
  - intros J x T fld n dx seebeck thermal_cond Hlen.
    pose proof (efficiency_field_length Th Tc x T) as Hn3. fold fld in Hn3. fold n in Hn3.
    destruct (lookups_defined fld.2 n Hlen) as [Ts HTs].
    unfold efficiency_terms. fold fld.
    destruct fld as [xs Ts'] eqn:Hfld. cbn [fst snd] in *. fold n. fold dx.
    rewrite HTs, Hips. cbn [mbind option_bind].
    destruct (cumulative_integrals _ _ _ _ _) as [cs cr] eqn:Hint.
    eexists. split; [reflexivity|]. cbn [et_J et_q_last et_seebeck_integral
                                          et_resistivity_integral].
    split; [reflexivity|]. split.
    + rewrite heat_flux_last by lia. cbn [coefficients c1 c2].
      rewrite get_zip_with by (rewrite length_node_values; lia).
      rewrite !get_node_values by lia.
      rewrite (get_map (fun k => (Fin (-1) / k)%num) _ (n - 1)
                 (thermal_cond_at ips (get Ts' (n - 1))))
        by (apply lookup_node_values; lia).
      reflexivity.
    + intros Hlt Hth.
      rewrite calculate_efficiency_valid by assumption. fold self'.
      unfold efficiency_body, efficiency_terms. fold fld. rewrite Hfld. fold n. fold dx.
      rewrite HTs, Hips. cbn [mbind option_bind]. rewrite Hint.
      cbn [mbind option_bind]. unfold efficiency_of.
      rewrite (pydiv_nonzero _ _ Hth).
      now destruct (fneb _ _).
Qed.



(** On a leg with ρ = 8e-4 Ω·m, κ = 1 W/(m·K) and S = 0 at 1 A/cm²: one
    solver iteration on three nodes gives 401 K at the middle node (Joule
    heating with J = 100; J = 10000 would give the clip bound), and the
    returned power is 80000 W/m² (J = 10000; J = 100 would give 8). *)
Lemma current_density_conversion_factors_witness :
  let T := (calculate_temperature_distribution (p_calculator joule_table)
              (Fin 500) (Fin 300) 3 "p" "0.02" (Fin 1) 1).2.2 in
  let power := (calculate_efficiency (p_calculator joule_table)
                  (Fin 500) (Fin 300) "p" "0.02" (Fin 1) None None).2.2 in
  ((Fin (4009 # 10) <? get T 1)%num = true /\ (get T 1 <? Fin (4011 # 10))%num = true) /\
  ((Fin 79999 <? power)%num = true /\ (power <? Fin 80001)%num = true).
Proof.
  intros T power. subst T power.
  set (self := p_calculator joule_table).
  destruct (interpolators (ensure_interpolators self "p" "0.02") !! interp_key "p" "0.02")
    as [ips|] eqn:Hips; [|vm_compute in Hips; discriminate].
  destruct (current_density_conversion_factors self ips (Fin 500) (Fin 300) 3
              "p" "0.02" (Fin 1) Hips ltac:(lia)) as [[_ Hstep] Heff].
  destruct (Heff None None ltac:(vm_compute; lia)) as (t & Ht & _ & _ & Hpower).
  rewrite Hstep, (Hpower eq_refl eq_refl).
  vm_compute in Hips. injection Hips as <-.
  vm_compute in Ht. injection Ht as <-.
  vm_compute. repeat split.
Defined.
